(** * Mechanism Y: micro-batch pattern detection

    A shallow embedding of the pattern-detection notebook (the PySpark
    streaming job with its [process_batch] handler) and the properties of
    its reference-data loader, counter-store client, three detectors and
    output writer, followed by the ingestion notebook (Mechanism X) that
    produces the chunks.

    Modelling conventions.
    - A DataFrame is the list of its rows; a nullable column is an [option].
      Spark leaves the order of groups and of [distinct] rows unspecified:
      the model lists them in the order [remove_dups] gives and no general
      statement below depends on that order.
    - Float columns ([weight], [amount]) are rationals [Q], the values the
      floats hold: comparisons of finite floats are exact. The mean of
      PatId2 is given twice: taken exactly ([avg]) and as Spark computes it
      in binary64 ([avg_binary64]). [process_batch] carries the exact one;
      what is proved of it does not depend on the value of a mean.
    - The PostgreSQL table is a finite map from merchant id to counter.
      Each client call takes the fault (if any) the store exhibits during
      that call, so that the [try/except/finally] blocks can be followed. *)

From Stdlib Require Import QArith SpecFloat.
From stdpp Require Import gmap strings list sorting.

Open Scope Z_scope.

(** * Configuration *)

Definition PAT1_MERCHANT_TXN_THRESHOLD : Z := 50000.
Definition PAT2_AVG_TXN_VALUE_THRESHOLD : Q := 23 # 1.
Definition PAT2_MIN_TXN_COUNT : Z := 80.
Definition DETECTION_BATCH_SIZE : nat := 50.

(** * Reference data: percentile cut points *)

#[global] Instance Qle_dec : RelDecision Qle.
Proof.
  intros x y. destruct (Qlt_le_dec y x) as [H|H].
  - right. apply Qlt_not_le, H.
  - left. exact H.
Defined.

#[global] Instance Qle_total : Total Qle.
Proof.
  intros x y. destruct (Qlt_le_dec y x) as [H|H].
  - right. apply Qlt_le_weak, H.
  - left. exact H.
Qed.

#[global] Instance Qle_trans' : Transitive Qle.
Proof. intros x y z. apply Qle_trans. Qed.

(** A threshold is a float: a finite value or [float('inf')]. *)
Inductive Threshold : Type :=
  | Weight (q : Q)
  | PosInf.

(** [customer_weights.sort()]: ascending. *)
Definition sort_weights (customer_weights : list Q) : list Q :=
  merge_sort Qle customer_weights.

(** [int(n * 0.01)] and [int(n * 0.99)], the product taken exactly. *)
Definition bottom_index (n : nat) : nat := (n * 1 / 100)%nat.
Definition top_index (n : nat) : nat := (n * 99 / 100)%nat.

(** The same two indices as Python computes them, in binary64: the length
    converted to a float, multiplied by the float nearest to 0.01 (or 0.99)
    with rounding to nearest even, and truncated by [int]. *)
Definition float_0_01 : spec_float := S754_finite false 5764607523034235 (-59).
Definition float_0_99 : spec_float := S754_finite false 8917127262193582 (-53).

(** [int(x)] on a float: truncation toward zero; [None] for NaN and the
    infinities, where Python raises. *)
Definition py_int (x : spec_float) : option Z :=
  match x with
  | S754_zero _ => Some 0
  | S754_finite s m e =>
      let magnitude :=
        match e with
        | Zneg k => Z.pos m / 2 ^ Z.pos k
        | _ => Z.pos m * 2 ^ e
        end in
      Some (if s then - magnitude else magnitude)
  | _ => None
  end.

Definition binary64_index (factor : spec_float) (n : Z) : option Z :=
  py_int (SFmul 53 1024 (binary_normalize 53 1024 n 0 false) factor).

(** Both binary64 indices of length [n] equal the exact ones. *)
Definition indices_agree (n : Z) : bool :=
  match binary64_index float_0_01 n, binary64_index float_0_99 n with
  | Some a, Some b => (a =? n * 1 / 100) && (b =? n * 99 / 100)
  | _, _ => false
  end.

Fixpoint indices_agree_from (count : nat) (n : Z) : bool :=
  match count with
  | O => true
  | S count' => indices_agree n && indices_agree_from count' (n + 1)
  end.

(** [l[i]] for a non-negative index; [None] stands for [IndexError]. *)
Definition py_getitem {A} (l : list A) (i : nat) : option A := l !! i.

(** [customer_weights[int(len(customer_weights) * 0.01)] if customer_weights else 0] *)
Definition bottom_1_percentile_weight_threshold (customer_weights : list Q) : option Q :=
  let sorted := sort_weights customer_weights in
  match sorted with
  | [] => Some 0%Q
  | _ => py_getitem sorted (bottom_index (length sorted))
  end.

(** [customer_weights[int(len(customer_weights) * 0.99)] if customer_weights else float('inf')] *)
Definition top_1_percentile_weight_threshold (customer_weights : list Q) : option Threshold :=
  let sorted := sort_weights customer_weights in
  match sorted with
  | [] => Some PosInf
  | _ => Weight <$> py_getitem sorted (top_index (length sorted))
  end.

(** * Data model *)

(** The columns of a transaction row that the handler reads; every CSV
    column is nullable. *)
Record TransactionRecord : Type := {
  customer : option string;
  gender : option string;
  merchant : option string;
  amount : option Q
}.

(** A row of [df_customer_importance]. Every reference row carries a
    numeric weight (the start-up sort of the weight list needs one). *)
Record ImportanceEntry : Type := {
  customer_id : option string;
  merchant_id : option string;
  weight : Q
}.

Record Detection : Type := {
  patternId : string;
  ActionType : string;
  customerName : option string;
  MerchantId : option string;
  YStartTime : string;
  detectionTime : string
}.

#[global] Instance Detection_eq_dec : EqDecision Detection.
Proof. solve_decision. Defined.

(** [customer_weights]: the collected weight column. *)
Definition customer_weights (df_customer_importance : list ImportanceEntry) : list Q :=
  map weight df_customer_importance.

(** * Pattern 1: UPGRADE *)

(** The join condition; an equality with a null side is never true. *)
Definition join_on (t : TransactionRecord) (ci : ImportanceEntry) : Prop :=
  is_Some (customer t) ∧ customer t = customer_id ci ∧
  is_Some (merchant t) ∧ merchant t = merchant_id ci.

#[global] Instance join_on_dec t ci : Decision (join_on t ci).
Proof. unfold join_on. apply _. Defined.

(** Left join: a row without a match is kept once, with a null [ci] side. *)
Definition transactions_with_importance
    (processed_df : list TransactionRecord) (df_customer_importance : list ImportanceEntry)
    : list (TransactionRecord * option ImportanceEntry) :=
  flat_map (fun t =>
      match filter (join_on t) df_customer_importance with
      | [] => [(t, None)]
      | matches => map (fun ci => (t, Some ci)) matches
      end) processed_df.

(** [merchant_total_txns_b.value.get(m_id, 0)] on the broadcast dictionary;
    the key [None] is Python's [None]. *)
Definition get_total_txns_udf (merchant_total_txns_map : gmap (option string) Z)
    (m_id : option string) : Z :=
  default 0 (merchant_total_txns_map !! m_id).

Definition pat1_df_prep (merchant_total_txns_map : gmap (option string) Z)
    (joined : list (TransactionRecord * option ImportanceEntry))
    : list (TransactionRecord * option ImportanceEntry * Z) :=
  map (fun r => (r, get_total_txns_udf merchant_total_txns_map (merchant (fst r)))) joined.

(** [(ci.weight <= bottom) & (total_merchant_txns > threshold)]; a null
    weight makes the condition null, which [filter] drops. *)
Definition pat1_filter (bottom : Q) (r : TransactionRecord * option ImportanceEntry * Z) : Prop :=
  match snd (fst r) with
  | Some ci => (weight ci <= bottom)%Q
  | None => False
  end ∧ snd r > PAT1_MERCHANT_TXN_THRESHOLD.

#[global] Instance pat1_filter_dec bottom r : Decision (pat1_filter bottom r).
Proof. unfold pat1_filter. destruct (snd (fst r)); apply _. Defined.

Definition pat1_select (r : TransactionRecord * option ImportanceEntry * Z) : Detection :=
  {| patternId := "PatId1"; ActionType := "UPGRADE";
     customerName := customer (fst (fst r)); MerchantId := merchant (fst (fst r));
     YStartTime := ""; detectionTime := "" |}.

Definition pat1_detections (bottom : Q) (merchant_total_txns_map : gmap (option string) Z)
    (processed_df : list TransactionRecord) (df_customer_importance : list ImportanceEntry)
    : list Detection :=
  remove_dups (map pat1_select
    (filter (pat1_filter bottom)
      (pat1_df_prep merchant_total_txns_map
        (transactions_with_importance processed_df df_customer_importance)))).

(** * Pattern 2: CHILD *)

Definition Qsum (l : list Q) : Q := foldr Qplus 0%Q l.

(** [avg] with the sum and the quotient taken exactly: the mean of the
    non-null values, null when there is none. *)
Definition avg (values : list (option Q)) : option Q :=
  match omap id values with
  | [] => None
  | vs => Some (Qsum vs / inject_Z (Z.of_nat (length vs)))%Q
  end.

(** [count("*")] *)
Definition count_rows {A} (rows : list A) : Z := Z.of_nat (length rows).

Record CustomerMerchantStats : Type := {
  stats_customer : option string;
  stats_merchant : option string;
  avg_amount : option Q;
  txn_count : Z
}.

(** The rows of one [(customer, merchant)] group. *)
Definition customer_merchant_group (processed_df : list TransactionRecord)
    (k : option string * option string) : list TransactionRecord :=
  filter (fun t => (customer t, merchant t) = k) processed_df.

Definition customer_merchant_stats (processed_df : list TransactionRecord)
    : list CustomerMerchantStats :=
  map (fun k =>
      let g := customer_merchant_group processed_df k in
      {| stats_customer := fst k; stats_merchant := snd k;
         avg_amount := avg (map amount g); txn_count := count_rows g |})
    (remove_dups (map (fun t => (customer t, merchant t)) processed_df)).

#[global] Instance Qlt_dec : RelDecision Qlt.
Proof.
  intros x y. destruct (Qlt_le_dec x y) as [H|H].
  - left. exact H.
  - right. apply Qle_not_lt, H.
Defined.

Definition pat2_filter (s : CustomerMerchantStats) : Prop :=
  match avg_amount s with
  | Some a => (a < PAT2_AVG_TXN_VALUE_THRESHOLD)%Q
  | None => False
  end ∧ txn_count s >= PAT2_MIN_TXN_COUNT.

#[global] Instance pat2_filter_dec s : Decision (pat2_filter s).
Proof. unfold pat2_filter. destruct (avg_amount s); apply _. Defined.

Definition pat2_select (s : CustomerMerchantStats) : Detection :=
  {| patternId := "PatId2"; ActionType := "CHILD";
     customerName := stats_customer s; MerchantId := stats_merchant s;
     YStartTime := ""; detectionTime := "" |}.

Definition pat2_detections (processed_df : list TransactionRecord) : list Detection :=
  remove_dups (map pat2_select (filter pat2_filter (customer_merchant_stats processed_df))).

(** ** The mean as Spark computes it

    [amount] is a binary32 column. [avg("amount")] casts each non-null
    amount to binary64 (exactly), adds them in binary64 from [0.0], counts
    them, and divides the sum by the count in binary64. The additions are
    partial sums within partitions, merged as the partial results arrive:
    their order and grouping are Spark's choice. *)

Definition binary64_of_Z (z : Z) : spec_float := binary_normalize 53 1024 z 0 false.

(** The cast of an amount to binary64: for [q] a binary64 value, as every
    binary32 value is, the float that holds [q] (the quotient of two
    integers that binary64 holds, and exact). *)
Definition binary64_of_Q (q : Q) : spec_float :=
  let r := Qred q in
  SFdiv 53 1024 (binary64_of_Z (Qnum r)) (binary64_of_Z (Z.pos (Qden r))).

(** A way of adding up: [Zero] is the initial buffer [0.0], [Term] an
    amount, [Plus] one binary64 addition. *)
Inductive Sum : Type :=
  | Zero
  | Term (q : Q)
  | Plus (a b : Sum).

Fixpoint terms (s : Sum) : list Q :=
  match s with
  | Zero => []
  | Term q => [q]
  | Plus a b => terms a ++ terms b
  end.

Fixpoint sum_binary64 (s : Sum) : spec_float :=
  match s with
  | Zero => S754_zero false
  | Term q => binary64_of_Q q
  | Plus a b => SFadd 53 1024 (sum_binary64 a) (sum_binary64 b)
  end.

(** How an aggregation adds the amounts of a group of rows: in any order
    and grouping, each non-null amount once. A null amount adds [0.0],
    which leaves the value of the sum as it is. *)
Record Aggregation : Type := {
  additions : list TransactionRecord → Sum;
  additions_terms : ∀ rows, terms (additions rows) ≡ₚ omap amount rows
}.

(** The rows of one partition, added one after the other in row order. *)
Definition add_in_row_order (rows : list TransactionRecord) : Sum :=
  foldl (fun s q => Plus s (Term q)) Zero (omap amount rows).

Definition in_row_order : Aggregation.
Proof.
  refine {| additions := add_in_row_order |}.
  intros rows. unfold add_in_row_order.
  assert (H : ∀ l s, terms (foldl (fun s q => Plus s (Term q)) s l) = terms s ++ l).
  { induction l as [|q l IH]; intros s; simpl.
    - by rewrite app_nil_r.
    - rewrite IH. simpl. by rewrite <- app_assoc. }
  by rewrite H.
Defined.

(** Two partitions, the first with the group's first [k] rows: each adds its
    rows in row order, and the two partial sums are merged, one after the
    other, into the initial buffer. *)
Definition add_in_two_partitions (k : nat) (rows : list TransactionRecord) : Sum :=
  Plus (Plus Zero (additions in_row_order (take k rows)))
       (additions in_row_order (drop k rows)).

Definition in_two_partitions (k : nat) : Aggregation.
Proof.
  refine {| additions := add_in_two_partitions k |}.
  intros rows. unfold add_in_two_partitions. cbn [terms app].
  rewrite !additions_terms, <- omap_app. by rewrite take_drop.
Defined.

(** [avg("amount")] over the rows of a group: null when no amount is
    non-null. *)
Definition avg_binary64 (agg : Aggregation) (rows : list TransactionRecord)
    : option spec_float :=
  match omap amount rows with
  | [] => None
  | vs => Some (SFdiv 53 1024 (sum_binary64 (additions agg rows))
                              (binary64_of_Z (Z.of_nat (length vs))))
  end.

Record CustomerMerchantStats64 : Type := {
  stats64_customer : option string;
  stats64_merchant : option string;
  avg_amount64 : option spec_float;
  txn_count64 : Z
}.

Definition customer_merchant_stats_binary64 (agg : Aggregation)
    (processed_df : list TransactionRecord) : list CustomerMerchantStats64 :=
  map (fun k =>
      let g := customer_merchant_group processed_df k in
      {| stats64_customer := fst k; stats64_merchant := snd k;
         avg_amount64 := avg_binary64 agg g; txn_count64 := count_rows g |})
    (remove_dups (map (fun t => (customer t, merchant t)) processed_df)).

(** [PAT2_AVG_TXN_VALUE_THRESHOLD] as the binary64 literal [23.0]. *)
Definition float_23_0 : spec_float := binary64_of_Z 23.

(** [(col("avg_amount") < 23.0) & (col("txn_count") >= 80)]; a null or NaN
    average compares false. *)
Definition pat2_filter_binary64 (s : CustomerMerchantStats64) : Prop :=
  match avg_amount64 s with
  | Some a => SFltb a float_23_0 = true
  | None => False
  end ∧ txn_count64 s >= PAT2_MIN_TXN_COUNT.

#[global] Instance pat2_filter_binary64_dec s : Decision (pat2_filter_binary64 s).
Proof. unfold pat2_filter_binary64. destruct (avg_amount64 s); apply _. Defined.

Definition pat2_select_binary64 (s : CustomerMerchantStats64) : Detection :=
  {| patternId := "PatId2"; ActionType := "CHILD";
     customerName := stats64_customer s; MerchantId := stats64_merchant s;
     YStartTime := ""; detectionTime := "" |}.

Definition pat2_detections_binary64 (agg : Aggregation)
    (processed_df : list TransactionRecord) : list Detection :=
  remove_dups (map pat2_select_binary64
    (filter pat2_filter_binary64 (customer_merchant_stats_binary64 agg processed_df))).

(** * Pattern 3: DEI-NEEDED *)

(** [col("gender").isin("M", "F")]; null for a null gender. *)
Definition gender_isin_M_F (t : TransactionRecord) : Prop :=
  gender t = Some "M"%string ∨ gender t = Some "F"%string.

Record GenderCount : Type := {
  gc_merchant : option string;
  gc_gender : option string;
  gender_count : Z
}.

Definition gender_counts_per_merchant (processed_df : list TransactionRecord)
    : list GenderCount :=
  let kept := filter gender_isin_M_F processed_df in
  map (fun k =>
      {| gc_merchant := fst k; gc_gender := snd k;
         gender_count := count_rows (filter (fun t => (merchant t, gender t) = k) kept) |})
    (remove_dups (map (fun t => (merchant t, gender t)) kept)).

(** [sum]: null over no rows. *)
Definition spark_sum (values : list Z) : option Z :=
  match values with
  | [] => None
  | _ => Some (foldr Z.add 0 values)
  end.

(** A pivot cell: the aggregate over the group's rows with that gender. *)
Definition pivot_cell (rows : list GenderCount) (m : option string) (g : string) : option Z :=
  spark_sum (map gender_count
    (filter (fun r => gc_merchant r = m ∧ gc_gender r = Some g) rows)).

(** [fillna(0)] on a numeric cell. *)
Definition fillna0 (cell : option Z) : Z := default 0 cell.

Record PivotedGenderCounts : Type := {
  pv_merchant : option string;
  pv_M : Z;
  pv_F : Z
}.

Definition pivoted_gender_counts (processed_df : list TransactionRecord)
    : list PivotedGenderCounts :=
  let rows := gender_counts_per_merchant processed_df in
  map (fun m =>
      {| pv_merchant := m;
         pv_M := fillna0 (pivot_cell rows m "M");
         pv_F := fillna0 (pivot_cell rows m "F") |})
    (remove_dups (map gc_merchant rows)).

Definition pat3_select (r : PivotedGenderCounts) : Detection :=
  {| patternId := "PatId3"; ActionType := "DEI-NEEDED";
     customerName := Some ""%string; MerchantId := pv_merchant r;
     YStartTime := ""; detectionTime := "" |}.

Definition pat3_detections (processed_df : list TransactionRecord) : list Detection :=
  remove_dups (map pat3_select
    (filter (fun r => pv_F r < pv_M r) (pivoted_gender_counts processed_df))).

(** * Counter store client *)

(** The table [merchant_transaction_counts] is a [gmap string Z]: primary
    key [merchant_id], one integer counter per row. The bounds of the column
    types (255 characters, 64 bits) are not modelled. *)

(** The psycopg2 call, if any, that raises during one client call. A
    fault at a call the function does not make ([commit] in a read,
    [fetchone] in an increment) is no fault. *)
Inductive Fault : Type :=
  | NoFault
  | AtConnect
  | AtCursor
  | AtExecute
  | AtCommit
  | AtFetchone.

#[global] Instance Fault_eq_dec : EqDecision Fault.
Proof. solve_decision. Defined.

(** The only exception that leaves a client function: reading a local name
    that was never assigned. Everything raised inside [try] is caught by
    [except Exception]. *)
Inductive Exn : Type :=
  | UnboundLocalError (name : string).

Inductive Outcome (A : Type) : Type :=
  | Returned (a : A)
  | Raised (e : Exn).
Arguments Returned {A} a.
Arguments Raised {A} e.

(** Which of the function's local names are bound. *)
Record Locals : Type := { conn : bool; cur : bool }.

(** [INSERT ... ON CONFLICT (merchant_id) DO UPDATE SET total = total +
    EXCLUDED.total]; a null primary key is rejected. *)
Definition upsert_sql (merchant_id : option string) (count_delta : Z) (db : gmap string Z)
    : option (gmap string Z) :=
  match merchant_id with
  | None => None
  | Some k =>
      match db !! k with
      | Some total => Some (<[k := total + count_delta]> db)
      | None => Some (<[k := count_delta]> db)
      end
  end.

(** [SELECT total_transactions ... WHERE merchant_id = %s] then [fetchone()]:
    the row, if any. A comparison with a null key selects nothing. *)
Definition select_sql (merchant_id : option string) (db : gmap string Z) : option Z :=
  match merchant_id with
  | None => None
  | Some k => db !! k
  end.

(** The [try] block of [upsert_merchant_counts]: the locals bound when the
    block is left and the committed table when it ran to its end. *)
Definition upsert_try (f : Fault) (merchant_id : option string) (count_delta : Z)
    (db : gmap string Z) : Locals * option (gmap string Z) :=
  match f with
  | AtConnect => ({| conn := false; cur := false |}, None)
  | AtCursor => ({| conn := true; cur := false |}, None)
  | AtExecute => ({| conn := true; cur := true |}, None)
  | _ =>
      match upsert_sql merchant_id count_delta db with
      | None => ({| conn := true; cur := true |}, None)
      | Some db' =>
          match f with
          | AtCommit => ({| conn := true; cur := true |}, None)
          | _ => ({| conn := true; cur := true |}, Some db')
          end
      end
  end.

(** The [finally] block: [if cur: cur.close()] then [if conn: conn.close()]. *)
Definition finally_close (l : Locals) : option Exn :=
  if negb (cur l) then Some (UnboundLocalError "cur")
  else if negb (conn l) then Some (UnboundLocalError "conn")
  else None.

Definition upsert_merchant_counts (f : Fault) (merchant_id : option string) (count_delta : Z)
    (db : gmap string Z) : Outcome unit * gmap string Z :=
  let (locals, committed) := upsert_try f merchant_id count_delta db in
  let db' := default db committed in
  match finally_close locals with
  | Some e => (Raised e, db')
  | None => (Returned tt, db')
  end.

(** The [try] block of [get_merchant_total_transactions]: the locals bound
    when it is left and the value of its [return], if it got there. *)
Definition get_try (f : Fault) (merchant_id : option string) (db : gmap string Z)
    : Locals * option Z :=
  match f with
  | AtConnect => ({| conn := false; cur := false |}, None)
  | AtCursor => ({| conn := true; cur := false |}, None)
  | AtExecute | AtFetchone => ({| conn := true; cur := true |}, None)
  | _ => ({| conn := true; cur := true |}, Some (default 0 (select_sql merchant_id db)))
  end.

Definition get_merchant_total_transactions (f : Fault) (merchant_id : option string)
    (db : gmap string Z) : Outcome Z :=
  let (locals, returned) := get_try f merchant_id db in
  let result := default 0 returned in
  match finally_close locals with
  | Some e => Raised e
  | None => Returned result
  end.

(** * The world a batch runs in *)

Inductive StoreCall : Type :=
  | Increment (merchant_id : option string) (count_delta : Z)
  | Read (merchant_id : option string).

(** One output folder [detections_batch_{batch_id}_{file_uuid}] and its
    part files, one per partition. *)
Record OutputFolder : Type := {
  folder_batch_id : Z;
  folder_uuid : string;
  part_files : list (list Detection)
}.

Record World : Type := {
  db : gmap string Z;           (* the counter table *)
  calls : list StoreCall;       (* client calls issued so far, oldest first *)
  faults : list Fault;          (* the faults of the coming calls; none once exhausted *)
  written : list OutputFolder   (* folders written so far *)
}.

Definition M (A : Type) : Type := World → Outcome A * World.

#[global] Instance M_ret : MRet M := fun A a w => (Returned a, w).
#[global] Instance M_bind : MBind M := fun A B k m w =>
  match m w with
  | (Returned a, w') => k a w'
  | (Raised e, w') => (Raised e, w')
  end.

Definition call_upsert (merchant_id : option string) (count_delta : Z) : M unit := fun w =>
  let (r, db') := upsert_merchant_counts (hd NoFault (faults w)) merchant_id count_delta (db w) in
  (r, {| db := db'; calls := calls w ++ [Increment merchant_id count_delta];
         faults := tl (faults w); written := written w |}).

Definition call_get (merchant_id : option string) : M Z := fun w =>
  (get_merchant_total_transactions (hd NoFault (faults w)) merchant_id (db w),
   {| db := db w; calls := calls w ++ [Read merchant_id];
      faults := tl (faults w); written := written w |}).

Definition write_folder (folder : OutputFolder) : M unit := fun w =>
  (Returned tt, {| db := db w; calls := calls w; faults := faults w;
                   written := written w ++ [folder] |}).

(** * Batch processing *)

(** [processed_df.groupBy("merchant").agg(count("*"))] *)
Definition merchant_counts_in_batch (processed_df : list TransactionRecord)
    : list (option string * Z) :=
  map (fun m => (m, count_rows (filter (fun t => merchant t = m) processed_df)))
    (remove_dups (map merchant processed_df)).

(** [for index, row in merchant_counts_pd.iterrows(): upsert_merchant_counts(...)] *)
Fixpoint update_merchant_counts (merchant_counts_pd : list (option string * Z)) : M unit :=
  match merchant_counts_pd with
  | [] => mret tt
  | row :: rest =>
      _ ← call_upsert (fst row) (snd row);
      update_merchant_counts rest
  end.

(** [processed_df.select("merchant").distinct().collect()] *)
Definition distinct_merchants_in_batch (processed_df : list TransactionRecord)
    : list (option string) :=
  remove_dups (map merchant processed_df).

(** [{m.merchant: get_merchant_total_transactions(m.merchant) for m in ...}] *)
Fixpoint merchant_total_txns_map (merchants : list (option string))
    (acc : gmap (option string) Z) : M (gmap (option string) Z) :=
  match merchants with
  | [] => mret acc
  | m :: rest =>
      total ← call_get m;
      merchant_total_txns_map rest (<[m := total]> acc)
  end.

(** * Output writer *)

(** [repartition(n)] deals the rows of each input partition round-robin:
    the row at offset [i] goes to output partition [(start + 1 + i) mod n],
    where [start] is the position drawn for that input partition. *)
Fixpoint deal {A} (n position : nat) (rows : list A) (out : list (list A)) : list (list A) :=
  match rows with
  | [] => out
  | r :: rest =>
      deal n (S position) rest (alter (fun part => part ++ [r]) (S position mod n)%nat out)
  end.

(** How many of [len] rows dealt from [position] land in part [k]. *)
Fixpoint hits (n position len k : nat) : nat :=
  match len with
  | O => O
  | S len' =>
      ((if decide ((S position mod n)%nat = k) then 1 else 0) + hits n (S position) len' k)%nat
  end.

Fixpoint repartition_from {A} (n : nat) (start_position : nat → nat) (i : nat)
    (df : list (list A)) (out : list (list A)) : list (list A) :=
  match df with
  | [] => out
  | rows :: df' => repartition_from n start_position (S i) df' (deal n (start_position i) rows out)
  end.

Definition repartition {A} (n : nat) (start_position : nat → nat) (df : list (list A))
    : list (list A) :=
  repartition_from n start_position 0 df (replicate n []).

(** [max(1, (num_rows + DETECTION_BATCH_SIZE - 1) // DETECTION_BATCH_SIZE)] *)
Definition num_partitions_for (num_rows : nat) : nat :=
  Nat.max 1 ((num_rows + DETECTION_BATCH_SIZE - 1) / DETECTION_BATCH_SIZE)%nat.

(** What a batch takes from its surroundings: two clock readings, the
    random token, and the physical shape of [final_detections] (the sizes of
    its partitions, in order, the last one taking the remainder, and the
    round-robin start drawn for each). *)
Record BatchEnv : Type := {
  y_start_time_ist : string;
  detection_time_ist_str : string;
  file_uuid : string;
  partition_sizes : list nat;
  start_position : nat → nat
}.

Fixpoint partitions_of {A} (sizes : list nat) (rows : list A) : list (list A) :=
  match sizes with
  | [] => [rows]
  | k :: sizes' => take k rows :: partitions_of sizes' (drop k rows)
  end.

(** The write block, on [final_detections] given by its partitions. *)
Definition write_detections (env : BatchEnv) (batch_id : Z)
    (final_detections : list (list Detection)) : M unit :=
  if bool_decide (concat final_detections = []) then mret tt
  else
    let num_rows := length (concat final_detections) in
    if bool_decide (0 < num_rows)%nat then
      let num_partitions := num_partitions_for num_rows in
      write_folder
        {| folder_batch_id := batch_id; folder_uuid := file_uuid env;
           part_files := repartition num_partitions (start_position env) final_detections |}
    else mret tt.

(** [withColumn("YStartTime", ...).withColumn("detectionTime", ...)] *)
Definition stamp (env : BatchEnv) (d : Detection) : Detection :=
  {| patternId := patternId d; ActionType := ActionType d;
     customerName := customerName d; MerchantId := MerchantId d;
     YStartTime := y_start_time_ist env; detectionTime := detection_time_ist_str env |}.

(** [process_batch], with the module-level reference table and bottom cut
    point as arguments. *)
Definition process_batch (df_customer_importance : list ImportanceEntry) (bottom : Q)
    (env : BatchEnv) (current_df : list TransactionRecord) (batch_id : Z) : M unit :=
  match current_df with
  | [] => mret tt
  | _ =>
      (* the timestamp conversion rewrites a column that nothing below reads *)
      let processed_df := current_df in
      _ ← update_merchant_counts (merchant_counts_in_batch processed_df);
      snapshot ← merchant_total_txns_map (distinct_merchants_in_batch processed_df) ∅;
      let all_detections :=
        pat1_detections bottom snapshot processed_df df_customer_importance
        ++ pat2_detections processed_df
        ++ pat3_detections processed_df in
      let final_detections := map (stamp env) all_detections in
      write_detections env batch_id (partitions_of (partition_sizes env) final_detections)
  end.

(** * Detections, as the statements below name them *)

(** The PatId1 row of a (customer, merchant) pair, before stamping. *)
Definition upgrade (c m : option string) : Detection :=
  {| patternId := "PatId1"; ActionType := "UPGRADE";
     customerName := c; MerchantId := m; YStartTime := ""; detectionTime := "" |}.

(** The PatId2 row of a (customer, merchant) pair, before stamping. *)
Definition child (c m : option string) : Detection :=
  {| patternId := "PatId2"; ActionType := "CHILD";
     customerName := c; MerchantId := m; YStartTime := ""; detectionTime := "" |}.

(** The PatId3 row of a merchant, before stamping. *)
Definition dei_needed (m : option string) : Detection :=
  {| patternId := "PatId3"; ActionType := "DEI-NEEDED";
     customerName := Some ""%string; MerchantId := m; YStartTime := ""; detectionTime := "" |}.

(** A transaction row with every column present. *)
Definition txn (c g m : string) (a : Q) : TransactionRecord :=
  {| customer := Some c; gender := Some g; merchant := Some m; amount := Some a |}.

(** The number of a batch's rows with the given merchant and gender. *)
Definition gender_count_in (batch : list TransactionRecord) (m : option string) (g : string) : Z :=
  count_rows (filter (fun t => merchant t = m ∧ gender t = Some g) batch).

(** * Runs without faults *)

(** The store answers every coming call. *)
Definition fault_free (w : World) : Prop := Forall (fun f => f = NoFault) (faults w).

(** The number of a batch's rows with the given merchant. *)
Definition merchant_count (batch : list TransactionRecord) (m : option string) : Z :=
  count_rows (filter (fun t => merchant t = m) batch).

(** The table after one successful increment call. *)
Definition apply_increment (db : gmap string Z) (row : option string * Z) : gmap string Z :=
  default db (upsert_sql (fst row) (snd row) db).

(** The dictionary after one successful read of table [db]. *)
Definition record_read (db : gmap string Z) (acc : gmap (option string) Z) (m : option string)
    : gmap (option string) Z :=
  <[m := default 0 (select_sql m db)]> acc.

Definition increment_call (row : option string * Z) : StoreCall :=
  Increment (fst row) (snd row).

(** * Sample inputs *)

(** 125 distinct PatId1 rows. *)
Definition sample_detection (i : nat) : Detection :=
  upgrade (Some (String (Ascii.ascii_of_nat i) EmptyString)) (Some "M1"%string).

Definition sample_125 : list Detection := map sample_detection (seq 0 125).

Definition sample_env : BatchEnv :=
  {| y_start_time_ist := "2025-01-01 10:00:00";
     detection_time_ist_str := "2025-01-01 10:00:05";
     file_uuid := "00a1b2c3d4e5f607";
     partition_sizes := [];
     start_position := fun _ => 0%nat |}.

Definition empty_world : World :=
  {| db := ∅; calls := []; faults := []; written := [] |}.

Definition weights_1_to_100 : list Q :=
  map (fun k => inject_Z (Z.of_nat k)) (seq 1 100).

(** Three rows over two merchants. *)
Definition sample_batch : list TransactionRecord :=
  [txn "C1" "M" "M1" (10 # 1); txn "C2" "F" "M2" (20 # 1); txn "C1" "M" "M1" (30 # 1)].

(** The reference row of the pair (C1, M1), with the given weight. *)
Definition sample_entry (w : Q) : ImportanceEntry :=
  {| customer_id := Some "C1"%string; merchant_id := Some "M1"%string; weight := w |}.


(** * Further vocabulary for the runs of a batch *)

(** No coming failure happens before the cursor exists. *)
Definition absorbed_only (w : World) : Prop :=
  Forall (fun f => f ≠ AtConnect ∧ f ≠ AtCursor) (faults w).

(** The rows of the folders a run added to those of [w0]. *)
Definition new_rows (w0 w' : World) : list Detection :=
  concat (flat_map part_files (drop (length (written w0)) (written w'))).

(** The snapshot a run without faults builds from table [db0]. *)
Definition post_increment_snapshot (batch : list TransactionRecord) (db0 : gmap string Z)
    : gmap (option string) Z :=
  foldl (record_read (foldl apply_increment db0 (merchant_counts_in_batch batch)))
        ∅ (distinct_merchants_in_batch batch).

(** The merged detections of a batch, before stamping. *)
Definition all_detections (bottom : Q) (snapshot : gmap (option string) Z)
    (batch : list TransactionRecord) (ci : list ImportanceEntry) : list Detection :=
  pat1_detections bottom snapshot batch ci ++ pat2_detections batch ++ pat3_detections batch.

(** A second batch environment, for a replay. *)
Definition replay_env : BatchEnv :=
  {| y_start_time_ist := "2025-01-01 10:00:10";
     detection_time_ist_str := "2025-01-01 10:00:15";
     file_uuid := "8899aabbccddeeff";
     partition_sizes := [];
     start_position := fun _ => 0%nat |}.

(** A detection row as a detector emits it, with both time columns empty. *)
Definition unstamped (d : Detection) : Prop :=
  YStartTime d = ""%string ∧ detectionTime d = ""%string.

(** Two rows of the pair (C1, M1), and a table in which M1 stands at 49,999. *)
Definition threshold_batch : list TransactionRecord :=
  [txn "C1" "M" "M1" (10 # 1); txn "C1" "M" "M1" (12 # 1)].

Definition threshold_world : World :=
  {| db := {[ "M1"%string := 49999 ]}; calls := []; faults := []; written := [] |}.

(** * Mechanism X: the ingestion simulator

    The notebook that cuts [transactions.csv] into chunk files. A pandas
    frame is the list of its rows; a chunk file is found under its chunk id
    (its path is [transactions_chunk_{chunk_id}.csv]) and writing with mode
    [overwrite] replaces what the path held. The clock is read once per
    chunk; [clock chunk_id] is that reading, formatted. *)

Definition CHUNK_SIZE : nat := 1000.

(** [df.iloc[start:stop]] for non-negative bounds. *)
Definition iloc {A} (df : list A) (start stop : nat) : list A :=
  take (stop - start) (drop start df).

(** [withColumn("ingestion_timestamp_ist", lit(...))] *)
Definition with_ingestion_timestamp {A} (stamp : string) (chunk_df : list A)
    : list (A * string) :=
  map (fun row => (row, stamp)) chunk_df.

Definition process_and_write_chunk {A} (clock : nat → string)
    (df_transactions : list A) (start_row chunk_id : nat)
    (files : gmap nat (list (A * string))) : bool * gmap nat (list (A * string)) :=
  let end_row := Nat.min (start_row + CHUNK_SIZE) (length df_transactions) in
  let chunk_df := iloc df_transactions start_row end_row in
  match chunk_df with
  | [] => (false, files)
  | _ => (true, <[chunk_id := with_ingestion_timestamp (clock chunk_id) chunk_df]> files)
  end.

(** The variables of the main loop, the chunk files and the number of
    [time.sleep] calls made. *)
Record Ingestion (A : Type) : Type := {
  last_processed_row : nat;
  chunk_counter : nat;
  chunk_files : gmap nat (list (A * string));
  sleeps : nat
}.
Arguments last_processed_row {A} _.
Arguments chunk_counter {A} _.
Arguments chunk_files {A} _.
Arguments sleeps {A} _.

Definition ingestion_start {A} : Ingestion A :=
  {| last_processed_row := 0; chunk_counter := 0; chunk_files := ∅; sleeps := 0 |}.

(** The [while] loop; [None] when [fuel] iterations do not finish it. *)
Fixpoint ingestion_loop {A} (fuel : nat) (clock : nat → string)
    (pdf_transactions : list A) (st : Ingestion A) : option (Ingestion A) :=
  match fuel with
  | O => None
  | S fuel' =>
      let total_rows := length pdf_transactions in
      if bool_decide (last_processed_row st < total_rows)%nat then
        let counter := S (chunk_counter st) in
        let (processed, files) :=
          process_and_write_chunk clock pdf_transactions (last_processed_row st) counter
            (chunk_files st) in
        if processed then
          let last := (last_processed_row st + CHUNK_SIZE)%nat in
          let slept := if bool_decide (last < total_rows)%nat then S (sleeps st) else sleeps st in
          ingestion_loop fuel' clock pdf_transactions
            {| last_processed_row := last; chunk_counter := counter;
               chunk_files := files; sleeps := slept |}
        else
          Some {| last_processed_row := last_processed_row st; chunk_counter := counter;
                  chunk_files := files; sleeps := sleeps st |}
      else Some st
  end.

(** The rows of chunk files 1 .. [chunk_counter], in that order, without
    their timestamps. *)
Definition chunks_in_order {A} (st : Ingestion A) : list (list A) :=
  map (map fst) (omap (fun i => chunk_files st !! i) (seq 1 (chunk_counter st))).

(** The chunk the loop writes under id [i]. *)
Definition chunk_number {A} (clock : nat → string) (pdf_transactions : list A) (i : nat)
    : list (A * string) :=
  with_ingestion_timestamp (clock i)
    (iloc pdf_transactions ((i - 1) * CHUNK_SIZE)
       (Nat.min (i * CHUNK_SIZE) (length pdf_transactions))).

(** The number of chunks of a table of [n] rows. *)
Definition chunk_total (n : nat) : nat := ((n + CHUNK_SIZE - 1) / CHUNK_SIZE)%nat.

Definition sample_clock (chunk_id : nat) : string :=
  String (Ascii.ascii_of_nat (48 + chunk_id)) EmptyString.

(** A table of 2,500 rows. *)
Definition sample_table : list Z := map Z.of_nat (seq 0 2500).

(** * Amounts at the edge of binary64 *)

(** The binary32 value nearest to 22.99. *)
Definition amount_22_99 : Q := 12053381 # 524288.

(** Eighty rows of one pair whose amounts are binary32 values adding up to
    [1840 - 2^-61]: [1840 - 2^-13], [2^-13 - 2^-37], [2^-37 - 2^-61] and
    seventy-seven zeros. *)
Definition cancelling_batch : list TransactionRecord :=
  txn "C2" "M" "M2" (15073279 # 8192)
  :: txn "C2" "M" "M2" (16777215 # 137438953472)
  :: txn "C2" "M" "M2" (16777215 # 2305843009213693952)
  :: replicate 77 (txn "C2" "M" "M2" (0 # 1)).

(** Eighty rows of one pair whose computed sum depends on the grouping of
    the additions: [1840 - 2^-13], [2^-13 - 2^-37], twice [2^-38 - 5 * 2^-46]
    and seventy-six zeros. *)
Definition order_sensitive_batch : list TransactionRecord :=
  txn "C2" "M" "M2" (15073279 # 8192)
  :: txn "C2" "M" "M2" (16777215 # 137438953472)
  :: txn "C2" "M" "M2" (251 # 70368744177664)
  :: txn "C2" "M" "M2" (251 # 70368744177664)
  :: replicate 76 (txn "C2" "M" "M2" (0 # 1)).
(** * Reference data: properties *)

Lemma sort_weights_length ws : length (sort_weights ws) = length ws.
Proof. unfold sort_weights. by rewrite merge_sort_Permutation. Qed.

Lemma bottom_index_lt n : (0 < n)%nat → (bottom_index n < n)%nat.
Proof.
  intros Hn. unfold bottom_index. apply Nat.Div0.div_lt_upper_bound. lia.
Qed.

Lemma top_index_lt n : (0 < n)%nat → (top_index n < n)%nat.
Proof.
  intros Hn. unfold top_index. apply Nat.Div0.div_lt_upper_bound. lia.
Qed.

Lemma indices_agree_from_spec (count : nat) (n0 n : Z) :
  indices_agree_from count n0 = true → n0 <= n < n0 + Z.of_nat count →
  indices_agree n = true.
Proof.
  revert n0. induction count as [|count IH]; intros n0 Hall Hn; [lia |].
  simpl in Hall. apply andb_true_iff in Hall as [Hhere Hrest].
  destruct (decide (n = n0)) as [->|Hne]; [done |].
  apply (IH (n0 + 1)); [done | lia].
Qed.

Lemma indices_agree_up_to_10000 : indices_agree_from (Z.to_nat 10001) 0 = true.
Proof. vm_compute. reflexivity. Qed.

(** X20. For every list length up to 10,000 the two indices as Python
    computes them in binary64 ([int(n * 0.01)], [int(n * 0.99)]) are the
    exact ones, [n / 100] and [99 * n / 100] rounded down. *)
Lemma binary64_indices_are_exact (n : nat) :
  Z.of_nat n <= 10000 →
  binary64_index float_0_01 (Z.of_nat n) = Some (Z.of_nat (bottom_index n)) ∧
  binary64_index float_0_99 (Z.of_nat n) = Some (Z.of_nat (top_index n)).
Proof.
  intros Hn.
  assert (Hagree : indices_agree (Z.of_nat n) = true).
  { apply (indices_agree_from_spec (Z.to_nat 10001) 0); [apply indices_agree_up_to_10000 | lia]. }
  unfold indices_agree in Hagree.
  destruct (binary64_index float_0_01 _) as [a|]; [| discriminate Hagree].
  destruct (binary64_index float_0_99 _) as [b|]; [| discriminate Hagree].
  apply andb_true_iff in Hagree as [Ha%Z.eqb_eq Hb%Z.eqb_eq].
  unfold bottom_index, top_index.
  rewrite !Nat2Z.inj_div, !Nat2Z.inj_mul. split; f_equal; assumption.
Qed.

Lemma filter_none {A} (P : A → Prop) `{!∀ x, Decision (P x)} (l : list A) :
  Forall (λ x, ¬ P x) l → filter P l = [].
Proof.
  induction 1 as [|x l Hx Hl IH]; [done |].
  by rewrite filter_cons, decide_False.
Qed.

(** In an ascending list, the element at index [i] has at most [i] elements
    strictly below it and more than [i] elements at or below it. *)
Lemma rank_in_sorted (s : list Q) (i : nat) (v : Q) :
  StronglySorted Qle s → s !! i = Some v →
  (length (filter (λ w, (w < v)%Q) s) ≤ i)%nat ∧
  (i < length (filter (λ w, (w <= v)%Q) s))%nat.
Proof.
  intros Hs. revert i. induction Hs as [|x l Hl IH Hx]; intros i Hi; [done |].
  rewrite !filter_cons. destruct i as [|j]; simpl in Hi.
  - injection Hi as ->. rewrite decide_False by apply Qlt_irrefl.
    rewrite decide_True by apply Qle_refl. split; [| simpl; lia].
    rewrite filter_none; [done |].
    eapply Forall_impl; [exact Hx |]. intros w Hw. by apply Qle_not_lt.
  - destruct (IH j Hi) as [Hbelow Hupto].
    assert (Hxv : (x <= v)%Q).
    { rewrite Forall_forall in Hx. apply Hx. by apply list_elem_of_lookup_2 in Hi. }
    rewrite (decide_True (P := (x <= v)%Q)) by done. split; [| simpl; lia].
    destruct (decide (x < v)%Q); simpl; lia.
Qed.

Lemma rank_of_sorted_lookup (ws : list Q) (i : nat) (v : Q) :
  sort_weights ws !! i = Some v →
  (length (filter (λ w, (w < v)%Q) ws) ≤ i)%nat ∧
  (i < length (filter (λ w, (w <= v)%Q) ws))%nat.
Proof.
  intros Hi.
  destruct (rank_in_sorted (sort_weights ws) i v) as [Hbelow Hupto]; [| done |].
  { apply StronglySorted_merge_sort; apply _. }
  unfold sort_weights in *.
  by rewrite !merge_sort_Permutation in Hbelow, Hupto.
Qed.

(** C6. For a non-empty weight list of length [n], the bottom cut point is
    the element at 0-based index [n * 0.01] (rounded down) and the top cut
    point the element at index [n * 0.99] (rounded down) of the list sorted
    ascending; both indices are in range, so neither lookup raises. The cut
    point at index [i] has at most [i] weights strictly below it and more
    than [i] weights at or below it. *)
Theorem C6_percentile_cut_points (ws : list Q) :
  ws ≠ [] →
  let n := length ws in
  let sorted := sort_weights ws in
  Sorted Qle sorted ∧ sorted ≡ₚ ws ∧
  (∃ b, sorted !! (n * 1 / 100)%nat = Some b ∧
        bottom_1_percentile_weight_threshold ws = Some b ∧
        (length (filter (λ w, (w < b)%Q) ws) ≤ n * 1 / 100)%nat ∧
        (n * 1 / 100 < length (filter (λ w, (w <= b)%Q) ws))%nat) ∧
  (∃ t, sorted !! (n * 99 / 100)%nat = Some t ∧
        top_1_percentile_weight_threshold ws = Some (Weight t) ∧
        (length (filter (λ w, (w < t)%Q) ws) ≤ n * 99 / 100)%nat ∧
        (n * 99 / 100 < length (filter (λ w, (w <= t)%Q) ws))%nat).
Proof.
  intros Hne n sorted.
  assert (Hlen : length sorted = n) by apply sort_weights_length.
  assert (Hpos : (0 < n)%nat).
  { subst n. destruct ws; [done | simpl; lia]. }
  split; [apply Sorted_merge_sort, _ |].
  split; [apply merge_sort_Permutation |].
  unfold bottom_1_percentile_weight_threshold, top_1_percentile_weight_threshold.
  fold sorted. rewrite Hlen.
  destruct sorted as [|x l] eqn:Hs; [simpl in Hlen; lia |].
  rewrite <- Hs. unfold py_getitem. split.
  - destruct (lookup_lt_is_Some_2 sorted (bottom_index n)) as [b Hb].
    { rewrite Hs, Hlen. by apply bottom_index_lt. }
    exists b. split; [exact Hb |]. split; [by rewrite <- Hb |].
    by apply rank_of_sorted_lookup.
  - destruct (lookup_lt_is_Some_2 sorted (top_index n)) as [t Ht].
    { rewrite Hs, Hlen. by apply top_index_lt. }
    exists t. split; [exact Ht |]. split; [unfold top_index in *; by rewrite Ht |].
    by apply rank_of_sorted_lookup.
Qed.

(** * Pattern 1: properties *)

Lemma elem_of_transactions_with_importance batch ci t oe :
  (t, oe) ∈ transactions_with_importance batch ci ↔
  t ∈ batch ∧
  match oe with
  | Some e => e ∈ ci ∧ join_on t e
  | None => ∀ e, e ∈ ci → ¬ join_on t e
  end.
Proof.
  unfold transactions_with_importance.
  rewrite list_elem_of_In, in_flat_map. split.
  - intros (t' & Ht' & Hin). apply list_elem_of_In in Ht', Hin.
    destruct (filter (join_on t') ci) as [|e0 l] eqn:Hf.
    + apply list_elem_of_singleton in Hin. injection Hin as -> ->.
      split; [done |]. intros e He Hj.
      assert (e ∈ filter (join_on t') ci) as Hc by (apply list_elem_of_filter; done).
      rewrite Hf in Hc. by apply not_elem_of_nil in Hc.
    + apply list_elem_of_fmap in Hin as (e & Heq & He). injection Heq as -> ->.
      split; [done |]. rewrite <- Hf in He.
      apply list_elem_of_filter in He. tauto.
  - intros (Ht & Hoe). exists t. split; [by apply list_elem_of_In |].
    apply list_elem_of_In.
    destruct (filter (join_on t) ci) as [|e0 l] eqn:Hf.
    + destruct oe as [e|]; [| apply list_elem_of_here].
      destruct Hoe as [He Hj].
      assert (e ∈ filter (join_on t) ci) as Hc by (apply list_elem_of_filter; done).
      rewrite Hf in Hc. by apply not_elem_of_nil in Hc.
    + destruct oe as [e|].
      * destruct Hoe as [He Hj]. apply list_elem_of_fmap. exists e. split; [done |].
        rewrite <- Hf. by apply list_elem_of_filter.
      * exfalso. assert (e0 ∈ filter (join_on t) ci) as Hc by (rewrite Hf; left).
        apply list_elem_of_filter in Hc as [Hj He]. by apply (Hoe e0).
Qed.

Lemma elem_of_pat1_detections bottom snapshot batch ci d :
  d ∈ pat1_detections bottom snapshot batch ci ↔
  ∃ t e, t ∈ batch ∧ e ∈ ci ∧ join_on t e ∧ (weight e <= bottom)%Q ∧
         get_total_txns_udf snapshot (merchant t) > PAT1_MERCHANT_TXN_THRESHOLD ∧
         d = upgrade (customer t) (merchant t).
Proof.
  unfold pat1_detections, pat1_df_prep.
  rewrite elem_of_remove_dups, list_elem_of_fmap. split.
  - intros ([[t oe] total] & -> & Hr).
    apply list_elem_of_filter in Hr as [[Hw Htot] Hr].
    apply list_elem_of_fmap in Hr as ([t' oe'] & Heq & Hj). injection Heq as <- <- ->.
    apply elem_of_transactions_with_importance in Hj as [Ht Hoe].
    simpl in *. destruct oe as [e|]; [| done]. destruct Hoe as [He Hj].
    exists t, e. done.
  - intros (t & e & Ht & He & Hj & Hw & Htot & ->).
    exists (t, Some e, get_total_txns_udf snapshot (merchant t)). split; [done |].
    apply list_elem_of_filter. split; [done |].
    apply list_elem_of_fmap. exists (t, Some e). split; [done |].
    apply elem_of_transactions_with_importance. done.
Qed.

Lemma join_on_same_pair t t' e :
  customer t = customer t' → merchant t = merchant t' → join_on t e → join_on t' e.
Proof. unfold join_on. intros <- <-. done. Qed.

(** C1. For every record of a batch, PatId1 emits the UPGRADE detection of
    the record's (customer, merchant) pair exactly when the reference table
    has a weight for that pair that is at most [bottom] (inclusive) and the
    snapshot's count for the merchant is strictly greater than 50,000; a
    record whose pair has no reference weight yields no PatId1 detection. *)
Theorem C1_pat1_iff (bottom : Q) (snapshot : gmap (option string) Z) batch ci t :
  t ∈ batch →
  (upgrade (customer t) (merchant t) ∈ pat1_detections bottom snapshot batch ci ↔
     (∃ e, e ∈ ci ∧ join_on t e ∧ (weight e <= bottom)%Q) ∧
     default 0 (snapshot !! merchant t) > 50000) ∧
  ((∀ e, e ∈ ci → ¬ join_on t e) →
     upgrade (customer t) (merchant t) ∉ pat1_detections bottom snapshot batch ci).
Proof.
  intros Ht.
  assert (Hiff : upgrade (customer t) (merchant t) ∈ pat1_detections bottom snapshot batch ci ↔
     (∃ e, e ∈ ci ∧ join_on t e ∧ (weight e <= bottom)%Q) ∧
     default 0 (snapshot !! merchant t) > 50000).
  { rewrite elem_of_pat1_detections. split.
    - intros (t' & e & Ht' & He & Hj & Hw & Htot & Heq).
      injection Heq as Hc Hm. split.
      + exists e. split; [done |]. split; [| done].
        by apply (join_on_same_pair t').
      + rewrite Hm. exact Htot.
    - intros [(e & He & Hj & Hw) Htot]. exists t, e. done. }
  split; [exact Hiff |].
  intros Hno Hin. apply Hiff in Hin as [(e & He & Hj & _) _]. by apply (Hno e).
Qed.

(** * Pattern 2: properties *)

Lemma elem_of_customer_merchant_stats batch s :
  s ∈ customer_merchant_stats batch ↔
  ∃ t, t ∈ batch ∧
    s = {| stats_customer := customer t; stats_merchant := merchant t;
           avg_amount := avg (map amount (customer_merchant_group batch (customer t, merchant t)));
           txn_count := count_rows (customer_merchant_group batch (customer t, merchant t)) |}.
Proof.
  unfold customer_merchant_stats. rewrite list_elem_of_fmap. split.
  - intros (k & -> & Hk). apply elem_of_remove_dups, list_elem_of_fmap in Hk.
    destruct Hk as (t & -> & Ht). exists t. done.
  - intros (t & Ht & ->). exists (customer t, merchant t). split; [done |].
    apply elem_of_remove_dups, list_elem_of_fmap. exists t. done.
Qed.

Lemma count_rows_filter_pos {A} (P : A → Prop) `{!∀ x, Decision (P x)} (l : list A) :
  0 < count_rows (filter P l) → ∃ x, x ∈ l ∧ P x.
Proof.
  unfold count_rows. destruct (filter P l) as [|x l'] eqn:Hf; [simpl; lia |].
  intros _. exists x.
  assert (x ∈ filter P l) as Hin by (rewrite Hf; left).
  apply list_elem_of_filter in Hin. tauto.
Qed.

Lemma customer_merchant_group_nonempty batch k :
  0 < count_rows (customer_merchant_group batch k) →
  ∃ t, t ∈ batch ∧ (customer t, merchant t) = k.
Proof. apply count_rows_filter_pos. Qed.

(** With the mean taken exactly, [pat2_detections] holds the CHILD row of a
    pair exactly when the mean of the pair's amounts in the batch is below
    23 and the pair has at least 80 rows there. *)
Lemma pat2_exact_mean_iff (batch : list TransactionRecord) (c m : option string) :
  child c m ∈ pat2_detections batch ↔
  (∃ mean, avg (map amount (customer_merchant_group batch (c, m))) = Some mean ∧
           (mean < 23 # 1)%Q) ∧
  count_rows (customer_merchant_group batch (c, m)) >= 80.
Proof.
  unfold pat2_detections.
  rewrite elem_of_remove_dups, list_elem_of_fmap. split.
  - intros (s & Heq & Hs). apply list_elem_of_filter in Hs as [[Havg Hcnt] Hs].
    apply elem_of_customer_merchant_stats in Hs as (t & Ht & ->).
    injection Heq as -> ->. simpl in *. split; [| done].
    destruct (avg _) as [a|]; [| done]. by exists a.
  - intros [(a & Havg & Hlt) Hcnt].
    destruct (customer_merchant_group_nonempty batch (c, m)) as (t & Ht & Hk).
    { unfold PAT2_MIN_TXN_COUNT in *. lia. }
    injection Hk as <- <-.
    eexists. split; [| apply list_elem_of_filter; split;
      [| apply elem_of_customer_merchant_stats; by exists t]].
    + done.
    + unfold pat2_filter. simpl. rewrite Havg. done.
Qed.

Example pat2_fires_at_80_rows_averaging_22_99 :
  pat2_detections (replicate 80 (txn "C2" "M" "M2" (2299 # 100))) =
  [child (Some "C2"%string) (Some "M2"%string)].
Proof. vm_compute. reflexivity. Qed.

Example pat2_silent_at_79_rows :
  pat2_detections (replicate 79 (txn "C2" "M" "M2" (2299 # 100))) = [].
Proof. vm_compute. reflexivity. Qed.

Example pat2_silent_at_mean_23 :
  pat2_detections (replicate 80 (txn "C2" "M" "M2" (23 # 1))) = [].
Proof. vm_compute. reflexivity. Qed.

(** ** Pattern 2 on the mean Spark computes *)

Lemma elem_of_customer_merchant_stats_binary64 agg batch s :
  s ∈ customer_merchant_stats_binary64 agg batch ↔
  ∃ t, t ∈ batch ∧
    s = {| stats64_customer := customer t; stats64_merchant := merchant t;
           avg_amount64 :=
             avg_binary64 agg (customer_merchant_group batch (customer t, merchant t));
           txn_count64 := count_rows (customer_merchant_group batch (customer t, merchant t)) |}.
Proof.
  unfold customer_merchant_stats_binary64. rewrite list_elem_of_fmap. split.
  - intros (k & -> & Hk). apply elem_of_remove_dups, list_elem_of_fmap in Hk.
    destruct Hk as (t & -> & Ht). exists t. done.
  - intros (t & Ht & ->). exists (customer t, merchant t). split; [done |].
    apply elem_of_remove_dups, list_elem_of_fmap. exists t. done.
Qed.

(** C5. PatId2 emits the CHILD detection of a (customer, merchant) pair
    exactly when, over the batch's own rows of that pair, the mean amount as
    Spark computes it (the non-null amounts added in binary64, in whichever
    order and grouping the aggregation takes them, and the sum divided by
    their number in binary64) is strictly below 23.0 and the number of rows
    is at least 80. *)
Theorem C5_pat2_binary64_iff (agg : Aggregation) (batch : list TransactionRecord)
    (c m : option string) :
  child c m ∈ pat2_detections_binary64 agg batch ↔
  (∃ mean, avg_binary64 agg (customer_merchant_group batch (c, m)) = Some mean ∧
           SFltb mean float_23_0 = true) ∧
  count_rows (customer_merchant_group batch (c, m)) >= 80.
Proof.
  unfold pat2_detections_binary64.
  rewrite elem_of_remove_dups, list_elem_of_fmap. split.
  - intros (s & Heq & Hs). apply list_elem_of_filter in Hs as [[Havg Hcnt] Hs].
    apply elem_of_customer_merchant_stats_binary64 in Hs as (t & Ht & ->).
    injection Heq as -> ->. cbn [avg_amount64 txn_count64] in *. split; [| done].
    destruct (avg_binary64 _ _) as [a|]; [| done]. by exists a.
  - intros [(a & Havg & Hlt) Hcnt].
    destruct (customer_merchant_group_nonempty batch (c, m)) as (t & Ht & Hk).
    { unfold PAT2_MIN_TXN_COUNT in *. lia. }
    injection Hk as <- <-.
    eexists. split; [| apply list_elem_of_filter; split;
      [| apply elem_of_customer_merchant_stats_binary64; by exists t]].
    + done.
    + unfold pat2_filter_binary64. cbn [avg_amount64 txn_count64]. rewrite Havg. done.
Qed.

(** The three boundary cases, the rows of one partition added in row order:
    80 rows of 22.99 fire, 79 do not, and 80 rows of 23.0 do not. *)
Example pat2_binary64_fires_at_80_rows_of_22_99 :
  pat2_detections_binary64 in_row_order (replicate 80 (txn "C2" "M" "M2" amount_22_99)) =
  [child (Some "C2"%string) (Some "M2"%string)].
Proof. vm_compute. reflexivity. Qed.

Example pat2_binary64_silent_at_79_rows :
  pat2_detections_binary64 in_row_order (replicate 79 (txn "C2" "M" "M2" amount_22_99)) = [].
Proof. vm_compute. reflexivity. Qed.

Example pat2_binary64_silent_at_mean_23 :
  pat2_detections_binary64 in_row_order (replicate 80 (txn "C2" "M" "M2" (23 # 1))) = [].
Proof. vm_compute. reflexivity. Qed.

(** The mean of 80 rows of 22.99 is computed without rounding. *)
Example mean_of_80_rows_of_22_99 :
  avg_binary64 in_row_order (replicate 80 (txn "C2" "M" "M2" amount_22_99)) =
  Some (binary64_of_Q amount_22_99).
Proof. vm_compute. reflexivity. Qed.

(** The computed mean depends on the grouping of the additions: the rows
    of [order_sensitive_batch] added in row order give 23.0 and no
    detection; added as two partitions of 2 and 78 rows they give the
    binary64 value just below 23.0, and a detection. *)
Example pat2_depends_on_the_grouping_of_additions :
  pat2_detections_binary64 in_row_order order_sensitive_batch = [] ∧
  pat2_detections_binary64 (in_two_partitions 2) order_sensitive_batch =
    [child (Some "C2"%string) (Some "M2"%string)].
Proof. split; vm_compute; reflexivity. Qed.

(** [cancelling_batch] yields no detection as two partitions either. *)
Example cancelling_batch_in_two_partitions :
  pat2_detections_binary64 (in_two_partitions 1) cancelling_batch = [] ∧
  pat2_detections_binary64 (in_two_partitions 2) cancelling_batch = [] ∧
  pat2_detections_binary64 (in_two_partitions 40) cancelling_batch = [].
Proof. repeat split; vm_compute; reflexivity. Qed.

(** C5, refuted as stated: the 80 rows of [cancelling_batch] have a mean of
    [23 - 2^-61 / 80], below 23; their binary64 sum is 1840.0, the computed
    mean is 23.0, and no detection is emitted. *)
Lemma C5_computed_mean_reaches_23 :
  let rows := customer_merchant_group cancelling_batch (Some "C2"%string, Some "M2"%string) in
  (∃ mean, avg (map amount rows) = Some mean ∧ (mean < 23 # 1)%Q) ∧
  count_rows rows >= 80 ∧
  avg_binary64 in_row_order rows = Some float_23_0 ∧
  child (Some "C2"%string) (Some "M2"%string)
    ∉ pat2_detections_binary64 in_row_order cancelling_batch.
Proof.
  cbv zeta. split; [| split; [| split]].
  - eexists. split; [reflexivity |]. vm_compute. reflexivity.
  - vm_compute. discriminate.
  - vm_compute. reflexivity.
  - assert (Hnone : pat2_detections_binary64 in_row_order cancelling_batch = [])
      by (vm_compute; reflexivity).
    rewrite Hnone. apply not_elem_of_nil.
Qed.

(** * Grouping lemmas *)

Lemma filter_fmap_comm {A B} (f : A → B) (P : B → Prop) `{!∀ y, Decision (P y)} (l : list A) :
  filter P (map f l) = map f (filter (λ x, P (f x)) l).
Proof.
  induction l as [|x l IH]; [done |]. simpl.
  rewrite !filter_cons. destruct (decide (P (f x))); simpl; by rewrite IH.
Qed.

Lemma filter_eq_NoDup {A} `{EqDecision A} (P : A → Prop) `{!∀ x, Decision (P x)}
    (l : list A) (k : A) :
  NoDup l → (∀ x, P x ↔ x = k) →
  filter P l = if decide (k ∈ l) then [k] else [].
Proof.
  intros Hnd HP. induction Hnd as [|x l Hx Hnd IH]; [done |].
  rewrite filter_cons, IH. destruct (decide (P x)) as [Hp|Hp].
  - apply HP in Hp as ->.
    rewrite (decide_True (P := k ∈ k :: l)) by left.
    by rewrite (decide_False (P := k ∈ l)).
  - destruct (decide (k ∈ l)) as [Hk|Hk].
    + by rewrite (decide_True (P := k ∈ x :: l)) by (by right).
    + rewrite (decide_False (P := k ∈ x :: l)); [done |].
      intros [->|?]%elem_of_cons; [| done]. apply Hp, HP. done.
Qed.

(** * Pattern 3: properties *)

Lemma kept_group_is_gender_count batch m g :
  g = "M"%string ∨ g = "F"%string →
  count_rows (filter (λ t, (merchant t, gender t) = (m, Some g))
                     (filter gender_isin_M_F batch)) =
  gender_count_in batch m g.
Proof.
  intros Hg. unfold gender_count_in. f_equal.
  rewrite list_filter_filter. apply list_filter_iff. intros t.
  unfold gender_isin_M_F. split.
  - intros [Heq _]. by injection Heq as -> ->.
  - intros [-> Hgen]. rewrite Hgen. split; [done |].
    destruct Hg as [-> | ->]; [by left | by right].
Qed.

Lemma pivot_cell_is_gender_count batch m g :
  g = "M"%string ∨ g = "F"%string →
  fillna0 (pivot_cell (gender_counts_per_merchant batch) m g) = gender_count_in batch m g.
Proof.
  intros Hg. unfold pivot_cell, gender_counts_per_merchant.
  rewrite filter_fmap_comm. simpl.
  rewrite (filter_eq_NoDup _ _ (m, Some g)).
  - destruct (decide _) as [Hin|Hout]; simpl.
    + rewrite Z.add_0_r. by apply kept_group_is_gender_count.
    + rewrite <- kept_group_is_gender_count by done.
      unfold count_rows.
      destruct (filter _ (filter gender_isin_M_F batch)) as [|t l] eqn:Hf; [done |].
      exfalso. apply Hout, elem_of_remove_dups, list_elem_of_fmap.
      assert (t ∈ filter (λ t, (merchant t, gender t) = (m, Some g))
                         (filter gender_isin_M_F batch)) as Hin by (rewrite Hf; left).
      apply list_elem_of_filter in Hin as [Hk Hin]. by exists t.
  - apply NoDup_remove_dups.
  - intros [m' g']. simpl. split; [by intros [-> ->] | by intros [= -> ->]].
Qed.

Lemma elem_of_pivoted_gender_counts batch r :
  r ∈ pivoted_gender_counts batch ↔
  (∃ t, t ∈ batch ∧ gender_isin_M_F t ∧ merchant t = pv_merchant r) ∧
  pv_M r = gender_count_in batch (pv_merchant r) "M" ∧
  pv_F r = gender_count_in batch (pv_merchant r) "F".
Proof.
  unfold pivoted_gender_counts. rewrite list_elem_of_fmap.
  setoid_rewrite elem_of_remove_dups. setoid_rewrite list_elem_of_fmap.
  split.
  - intros (m & -> & (gc & -> & Hgc)). simpl.
    rewrite !pivot_cell_is_gender_count by auto. split; [| done].
    unfold gender_counts_per_merchant in Hgc.
    apply list_elem_of_fmap in Hgc as (k & -> & Hk).
    apply elem_of_remove_dups, list_elem_of_fmap in Hk as (t & -> & Ht).
    apply list_elem_of_filter in Ht as [Hg Ht]. by exists t.
  - intros ((t & Ht & Hg & Hm) & HM & HF). exists (pv_merchant r). split.
    + rewrite !pivot_cell_is_gender_count by auto. destruct r; simpl in *. congruence.
    + exists {| gc_merchant := merchant t; gc_gender := gender t;
                gender_count := count_rows (filter (λ t', (merchant t', gender t') = (merchant t, gender t))
                                  (filter gender_isin_M_F batch)) |}.
      split; [done |]. unfold gender_counts_per_merchant.
      apply list_elem_of_fmap. exists (merchant t, gender t). split; [done |].
      apply elem_of_remove_dups, list_elem_of_fmap. exists t. split; [done |].
      by apply list_elem_of_filter.
Qed.

Lemma gender_count_in_pos batch m g :
  0 < gender_count_in batch m g → ∃ t, t ∈ batch ∧ merchant t = m ∧ gender t = Some g.
Proof. apply count_rows_filter_pos. Qed.

Lemma gender_count_in_nonneg batch m g : 0 <= gender_count_in batch m g.
Proof. unfold gender_count_in, count_rows. lia. Qed.

(** C2, as amended. PatId3 emits the DEI-NEEDED detection of a merchant
    exactly when, among the batch's rows with gender M or F, the merchant's
    female count (zero when it has no such row) is strictly less than its
    male count. *)
Theorem C2_pat3_iff (batch : list TransactionRecord) (m : option string) :
  dei_needed m ∈ pat3_detections batch ↔
  gender_count_in batch m "F" < gender_count_in batch m "M".
Proof.
  unfold pat3_detections.
  rewrite elem_of_remove_dups, list_elem_of_fmap. split.
  - intros (r & Heq & Hr). apply list_elem_of_filter in Hr as [Hlt Hr].
    apply elem_of_pivoted_gender_counts in Hr as (_ & HM & HF).
    injection Heq as ->. by rewrite <- HM, <- HF.
  - intros Hlt.
    exists {| pv_merchant := m; pv_M := gender_count_in batch m "M";
              pv_F := gender_count_in batch m "F" |}.
    split; [done |]. apply list_elem_of_filter. split; [done |].
    apply elem_of_pivoted_gender_counts. simpl. split; [| done].
    destruct (gender_count_in_pos batch m "M") as (t & Ht & Hm & Hg).
    { pose proof (gender_count_in_nonneg batch m "F"). lia. }
    exists t. split; [done |]. split; [by left | done].
Qed.

(** C2, refuted as stated: a merchant whose only row in the batch is male
    has no female count, yet the detection is emitted. *)
Lemma C2_only_male_rows_fire :
  let batch := [txn "C1" "M" "M1" (10 # 1)] in
  ¬ (dei_needed (Some "M1"%string) ∈ pat3_detections batch ↔
     0 < gender_count_in batch (Some "M1"%string) "M" ∧
     0 < gender_count_in batch (Some "M1"%string) "F" ∧
     gender_count_in batch (Some "M1"%string) "F" < gender_count_in batch (Some "M1"%string) "M").
Proof.
  intros batch [Hfire _].
  assert (Hin : dei_needed (Some "M1"%string) ∈ pat3_detections batch).
  { vm_compute. left. }
  apply Hfire in Hin as (_ & HF & _). vm_compute in HF. discriminate.
Qed.

Example pat3_fires_at_10_male_9_female :
  pat3_detections (replicate 10 (txn "C" "M" "M1" (1 # 1)) ++ replicate 9 (txn "C" "F" "M1" (1 # 1)))
  = [dei_needed (Some "M1"%string)].
Proof. vm_compute. reflexivity. Qed.

Example pat3_silent_at_10_male_10_female :
  pat3_detections (replicate 10 (txn "C" "M" "M1" (1 # 1)) ++ replicate 10 (txn "C" "F" "M1" (1 # 1)))
  = [].
Proof. vm_compute. reflexivity. Qed.

Example pat3_only_female_rows_silent :
  pat3_detections [txn "C1" "F" "M1" (10 # 1)] = [].
Proof. vm_compute. reflexivity. Qed.

(** * Reference data: the empty table *)

(** C10. With an empty weight list the loader does not fail: the bottom cut
    point is 0 and the top one is positive infinity. With that bottom cut
    point PatId1 fires only for pairs joined to a weight of at most 0, and
    with the empty reference table it never fires. *)
Theorem C10_empty_reference_defaults :
  bottom_1_percentile_weight_threshold (customer_weights []) = Some 0%Q ∧
  top_1_percentile_weight_threshold (customer_weights []) = Some PosInf ∧
  (∀ (snapshot : gmap (option string) Z) batch ci d,
     d ∈ pat1_detections 0 snapshot batch ci →
     ∃ t e, t ∈ batch ∧ e ∈ ci ∧ join_on t e ∧ (weight e <= 0)%Q ∧
            d = upgrade (customer t) (merchant t)) ∧
  (∀ (snapshot : gmap (option string) Z) batch, pat1_detections 0 snapshot batch [] = []).
Proof.
  split; [reflexivity |]. split; [reflexivity |]. split.
  - intros snapshot batch ci d Hd.
    apply elem_of_pat1_detections in Hd as (t & e & Ht & He & Hj & Hw & _ & ->).
    by exists t, e.
  - intros snapshot batch. apply elem_of_nil_inv. intros d Hd.
    apply elem_of_pat1_detections in Hd as (t & e & _ & He & _).
    by apply not_elem_of_nil in He.
Qed.

(** * Counter store client: failures *)

Lemma cursor_failure_escapes_too (m : option string) (delta : Z) (db : gmap string Z) :
  upsert_merchant_counts AtCursor m delta db = (Raised (UnboundLocalError "cur"), db) ∧
  get_merchant_total_transactions AtCursor m db = Raised (UnboundLocalError "cur").
Proof. split; reflexivity. Qed.

(** X21. A failure of execute or commit makes the increment a no-op that
    returns normally with the table unchanged; a failure of execute or
    fetchone makes the read return 0. *)
Lemma failure_after_cursor_is_absorbed (m : option string) (delta : Z) (db : gmap string Z) :
  upsert_merchant_counts AtExecute m delta db = (Returned tt, db) ∧
  upsert_merchant_counts AtCommit m delta db = (Returned tt, db) ∧
  get_merchant_total_transactions AtExecute m db = Returned 0 ∧
  get_merchant_total_transactions AtFetchone m db = Returned 0.
Proof.
  unfold upsert_merchant_counts, upsert_try, get_merchant_total_transactions.
  repeat split; try done; simpl; by destruct (upsert_sql m delta db).
Qed.

Lemma remove_dups_nonempty {A} `{EqDecision A} (l : list A) : l ≠ [] → remove_dups l ≠ [].
Proof.
  destruct l as [|x l]; [done |]. intros _ Hnil.
  assert (x ∈ remove_dups (x :: l)) as Hin by (apply elem_of_remove_dups; left).
  rewrite Hnil in Hin. by apply not_elem_of_nil in Hin.
Qed.

Lemma merchant_counts_in_batch_nonempty batch :
  batch ≠ [] → ∃ row rows, merchant_counts_in_batch batch = row :: rows.
Proof.
  intros Hne. unfold merchant_counts_in_batch.
  destruct (remove_dups (map merchant batch)) as [|m ms] eqn:Hd.
  - exfalso. apply (remove_dups_nonempty (map merchant batch)); [| done].
    by destruct batch.
  - simpl. eauto.
Qed.

(** C4, on the code. When connecting to the store fails, neither client
    function reaches its fallback: the [finally] block reads the local [cur],
    which was never bound, and the exception leaves the function. The first
    client call of a non-empty batch therefore aborts the batch. *)
Theorem C4_connect_failure_aborts_batch
    (ci : list ImportanceEntry) (bottom : Q) (env : BatchEnv)
    (t : TransactionRecord) (rest : list TransactionRecord) (batch_id : Z)
    (m : option string) (delta : Z) (db0 : gmap string Z) (later : list Fault) :
  let w0 := {| db := db0; calls := []; faults := AtConnect :: later; written := [] |} in
  get_merchant_total_transactions AtConnect m db0 = Raised (UnboundLocalError "cur") ∧
  upsert_merchant_counts AtConnect m delta db0 = (Raised (UnboundLocalError "cur"), db0) ∧
  fst (process_batch ci bottom env (t :: rest) batch_id w0) = Raised (UnboundLocalError "cur") ∧
  written (snd (process_batch ci bottom env (t :: rest) batch_id w0)) = [].
Proof.
  intros w0. split; [reflexivity |]. split; [reflexivity |].
  destruct (merchant_counts_in_batch_nonempty (t :: rest)) as (row & rows & Hrows); [done |].
  unfold process_batch. rewrite Hrows. by split.
Qed.

(** * Empty batches *)

(** C9. On an empty batch the handler returns at once, whatever the state
    of the store: it issues no client call (no increment, no read), leaves
    the counter table as it was and writes no folder. *)
Theorem C9_empty_batch_is_skipped
    (ci : list ImportanceEntry) (bottom : Q) (env : BatchEnv) (batch_id : Z) (w : World) :
  let run := process_batch ci bottom env [] batch_id w in
  fst run = Returned tt ∧
  calls (snd run) = calls w ∧
  db (snd run) = db w ∧
  written (snd run) = written w ∧
  snd run = w.
Proof. cbv zeta. unfold process_batch. simpl. repeat split. Qed.

(** * Runs without faults *)

Lemma fault_free_hd w : fault_free w → hd NoFault (faults w) = NoFault.
Proof. unfold fault_free. destruct (faults w); [done |]. by inversion 1. Qed.

Lemma fault_free_tl w : fault_free w → Forall (λ f, f = NoFault) (tl (faults w)).
Proof. unfold fault_free. destruct (faults w); [done |]. by inversion 1. Qed.

Lemma upsert_without_fault (m : option string) (delta : Z) (db : gmap string Z) :
  upsert_merchant_counts NoFault m delta db = (Returned tt, apply_increment db (m, delta)).
Proof.
  unfold upsert_merchant_counts, upsert_try, apply_increment. simpl.
  by destruct (upsert_sql m delta db).
Qed.

Lemma update_merchant_counts_run rows w :
  fault_free w →
  ∃ w', update_merchant_counts rows w = (Returned tt, w') ∧
        db w' = foldl apply_increment (db w) rows ∧
        calls w' = calls w ++ map increment_call rows ∧
        written w' = written w ∧
        fault_free w'.
Proof.
  revert w. induction rows as [|row rows IH]; intros w Hw.
  - exists w. simpl. by rewrite app_nil_r.
  - simpl. unfold mbind, M_bind, call_upsert.
    rewrite (fault_free_hd w Hw), upsert_without_fault.
    destruct (IH {| db := apply_increment (db w) (row.1, row.2);
                    calls := calls w ++ [Increment row.1 row.2];
                    faults := tl (faults w); written := written w |})
      as (w' & Hrun & Hdb & Hcalls & Hout & Hff).
    { by apply fault_free_tl. }
    exists w'. rewrite Hrun. simpl in *. split; [done |].
    split; [by destruct row |]. split; [| done].
    by rewrite Hcalls, <- app_assoc.
Qed.

Lemma get_without_fault (m : option string) (db : gmap string Z) :
  get_merchant_total_transactions NoFault m db = Returned (default 0 (select_sql m db)).
Proof. reflexivity. Qed.

Lemma merchant_total_txns_map_run ms acc w :
  fault_free w →
  ∃ w', merchant_total_txns_map ms acc w = (Returned (foldl (record_read (db w)) acc ms), w') ∧
        db w' = db w ∧
        calls w' = calls w ++ map Read ms ∧
        written w' = written w ∧
        fault_free w'.
Proof.
  revert acc w. induction ms as [|m ms IH]; intros acc w Hw.
  - exists w. simpl. by rewrite app_nil_r.
  - simpl. unfold mbind, M_bind, call_get.
    rewrite (fault_free_hd w Hw), get_without_fault.
    destruct (IH (<[m := default 0 (select_sql m (db w))]> acc)
                 {| db := db w; calls := calls w ++ [Read m];
                    faults := tl (faults w); written := written w |})
      as (w' & Hrun & Hdb & Hcalls & Hout & Hff).
    { by apply fault_free_tl. }
    exists w'. rewrite Hrun. simpl in *. split; [done |].
    split; [done |]. split; [| done].
    by rewrite Hcalls, <- app_assoc.
Qed.

Lemma lookup_foldl_record_read (db : gmap string Z) (ms : list (option string)) (acc : gmap (option string) Z) m :
  foldl (record_read db) acc ms !! m =
  if decide (m ∈ ms) then Some (default 0 (select_sql m db)) else acc !! m.
Proof.
  revert acc. induction ms as [|m' ms IH]; intros acc; [done |].
  simpl. rewrite IH. unfold record_read.
  destruct (decide (m ∈ ms)) as [Hin|Hout].
  - by rewrite decide_True by (by right).
  - destruct (decide (m = m')) as [->|Hne].
    + rewrite decide_True by left. by rewrite lookup_insert_eq.
    + rewrite lookup_insert_ne by done.
      rewrite decide_False; [done |]. by intros [?|?]%elem_of_cons.
Qed.

Lemma lookup_apply_increment (db : gmap string Z) (m : option string) (delta : Z) (k : string) :
  apply_increment db (m, delta) !! k =
  if decide (m = Some k)
  then match db !! k with Some total => Some (total + delta) | None => Some delta end
  else db !! k.
Proof.
  unfold apply_increment, upsert_sql. simpl. destruct m as [k'|]; simpl.
  - destruct (decide (Some k' = Some k)) as [[= ->]|Hne].
    + destruct (db !! k); simpl; by rewrite lookup_insert_eq.
    + destruct (db !! k'); simpl; rewrite lookup_insert_ne; congruence.
  - done.
Qed.

Lemma lookup_foldl_apply_increment (rows : list (option string * Z)) (db : gmap string Z) (k : string) :
  NoDup (map fst rows) →
  foldl apply_increment db rows !! k =
  match list_find (λ row, fst row = Some k) rows with
  | Some (_, (_, delta)) =>
      match db !! k with Some total => Some (total + delta) | None => Some delta end
  | None => db !! k
  end.
Proof.
  revert db. induction rows as [|[m delta] rows IH]; intros db Hnd; [done |].
  simpl in *. apply NoDup_cons in Hnd as [Hm Hnd].
  rewrite IH by done. rewrite lookup_apply_increment. simpl.
  destruct (decide (m = Some k)) as [->|Hne]; simpl.
  - destruct (list_find _ rows) as [[i [m' d']]|] eqn:Hfind; simpl; [| done].
    apply list_find_Some in Hfind as (Hi & Hk & _). simpl in Hk. subst m'.
    exfalso. apply Hm. apply list_elem_of_fmap. exists (Some k, d'). split; [done |].
    by apply list_elem_of_lookup_2 in Hi.
  - by destruct (list_find _ rows) as [[i [m' d']]|].
Qed.

Lemma write_detections_run env batch_id df w :
  ∃ w', write_detections env batch_id df w = (Returned tt, w') ∧
        db w' = db w ∧ calls w' = calls w ∧ faults w' = faults w.
Proof.
  unfold write_detections. repeat case_bool_decide; eauto.
Qed.

Lemma process_batch_run ci (bottom : Q) env batch batch_id w0 :
  batch ≠ [] → fault_free w0 →
  ∃ w1 w2 w3 snapshot,
    update_merchant_counts (merchant_counts_in_batch batch) w0 = (Returned tt, w1) ∧
    db w1 = foldl apply_increment (db w0) (merchant_counts_in_batch batch) ∧
    calls w1 = calls w0 ++ map increment_call (merchant_counts_in_batch batch) ∧
    merchant_total_txns_map (distinct_merchants_in_batch batch) ∅ w1 = (Returned snapshot, w2) ∧
    snapshot = foldl (record_read (db w1)) ∅ (distinct_merchants_in_batch batch) ∧
    db w2 = db w1 ∧
    calls w2 = calls w1 ++ map Read (distinct_merchants_in_batch batch) ∧
    process_batch ci bottom env batch batch_id w0 =
      write_detections env batch_id
        (partitions_of (partition_sizes env)
           (map (stamp env)
              (pat1_detections bottom snapshot batch ci
               ++ pat2_detections batch ++ pat3_detections batch))) w2 ∧
    process_batch ci bottom env batch batch_id w0 = (Returned tt, w3) ∧
    db w3 = db w2 ∧ calls w3 = calls w2.
Proof.
  intros Hne Hff.
  destruct (update_merchant_counts_run (merchant_counts_in_batch batch) w0 Hff)
    as (w1 & Hrun1 & Hdb1 & Hcalls1 & _ & Hff1).
  destruct (merchant_total_txns_map_run (distinct_merchants_in_batch batch) ∅ w1 Hff1)
    as (w2 & Hrun2 & Hdb2 & Hcalls2 & _ & _).
  set (snapshot := foldl (record_read (db w1)) ∅ (distinct_merchants_in_batch batch)) in *.
  destruct (write_detections_run env batch_id
    (partitions_of (partition_sizes env)
       (map (stamp env)
          (pat1_detections bottom snapshot batch ci
           ++ pat2_detections batch ++ pat3_detections batch))) w2)
    as (w3 & Hrun3 & Hdb3 & Hcalls3 & _).
  assert (Hpb : process_batch ci bottom env batch batch_id w0 =
      write_detections env batch_id
        (partitions_of (partition_sizes env)
           (map (stamp env)
              (pat1_detections bottom snapshot batch ci
               ++ pat2_detections batch ++ pat3_detections batch))) w2).
  { unfold process_batch. destruct batch as [|t rest]; [done |].
    unfold mbind at 1, M_bind at 1. rewrite Hrun1.
    unfold mbind at 1, M_bind at 1. rewrite Hrun2. done. }
  exists w1, w2, w3, snapshot. rewrite Hpb. done.
Qed.

Lemma merchant_counts_in_batch_keys batch :
  map fst (merchant_counts_in_batch batch) = distinct_merchants_in_batch batch.
Proof.
  unfold merchant_counts_in_batch, distinct_merchants_in_batch.
  induction (remove_dups (map merchant batch)) as [|m ms IH]; [done |].
  simpl. by rewrite IH.
Qed.

Lemma elem_of_merchant_counts_in_batch batch m delta :
  (m, delta) ∈ merchant_counts_in_batch batch ↔
  m ∈ map merchant batch ∧ delta = merchant_count batch m.
Proof.
  unfold merchant_counts_in_batch. rewrite list_elem_of_fmap.
  setoid_rewrite elem_of_remove_dups. split.
  - by intros (m' & [= -> ->] & Hm).
  - intros [Hm ->]. by exists m.
Qed.

Lemma lookup_after_increments batch (db0 : gmap string Z) (k : string) :
  foldl apply_increment db0 (merchant_counts_in_batch batch) !! k =
  if decide (Some k ∈ map merchant batch)
  then match db0 !! k with
       | Some total => Some (total + merchant_count batch (Some k))
       | None => Some (merchant_count batch (Some k))
       end
  else db0 !! k.
Proof.
  rewrite lookup_foldl_apply_increment.
  - destruct (list_find _ _) as [[i [m delta]]|] eqn:Hfind.
    + apply list_find_Some in Hfind as (Hi & Hk & _). simpl in Hk. subst m.
      apply list_elem_of_lookup_2, elem_of_merchant_counts_in_batch in Hi as [Hin ->].
      by rewrite decide_True.
    + rewrite decide_False; [done |]. intros Hin.
      apply list_find_None in Hfind. rewrite Forall_forall in Hfind.
      apply (Hfind (Some k, merchant_count batch (Some k))); [| done].
      by apply elem_of_merchant_counts_in_batch.
  - rewrite merchant_counts_in_batch_keys. apply NoDup_remove_dups.
Qed.

(** C7. In a run on a non-empty batch in which the store answers every
    call, the handler issues one increment call per distinct merchant of the
    batch, whose delta is the number of that merchant's rows, and no other
    increment; each adds its delta to the merchant's counter, or creates the
    counter with the delta when there is none, and the other counters are
    left alone. *)
Theorem C7_one_presummed_increment_per_merchant
    (ci : list ImportanceEntry) (bottom : Q) (env : BatchEnv)
    (batch : list TransactionRecord) (batch_id : Z) (w0 : World) :
  batch ≠ [] → fault_free w0 →
  let run := process_batch ci bottom env batch batch_id w0 in
  let increments := merchant_counts_in_batch batch in
  fst run = Returned tt ∧
  (∃ reads, calls (snd run) = calls w0 ++ map increment_call increments ++ map Read reads) ∧
  NoDup (map fst increments) ∧
  (∀ m, m ∈ map fst increments ↔ m ∈ map merchant batch) ∧
  (∀ m delta, (m, delta) ∈ increments → delta = merchant_count batch m) ∧
  (∀ k : string,
     db (snd run) !! k =
     if decide (Some k ∈ map merchant batch)
     then match db w0 !! k with
          | Some total => Some (total + merchant_count batch (Some k))
          | None => Some (merchant_count batch (Some k))
          end
     else db w0 !! k).
Proof.
  intros Hne Hff run increments.
  destruct (process_batch_run ci bottom env batch batch_id w0 Hne Hff)
    as (w1 & w2 & w3 & snapshot & _ & Hdb1 & Hcalls1 & _ & _ & Hdb2 & Hcalls2 & _ & Hrun & Hdb3 & Hcalls3).
  subst run. rewrite Hrun. simpl.
  split; [done |]. split.
  { exists (distinct_merchants_in_batch batch).
    by rewrite Hcalls3, Hcalls2, Hcalls1, <- app_assoc. }
  subst increments. rewrite merchant_counts_in_batch_keys.
  split; [apply NoDup_remove_dups |].
  split; [intros m; apply elem_of_remove_dups |].
  split; [by intros m delta [_ ->]%elem_of_merchant_counts_in_batch |].
  intros k. rewrite Hdb3, Hdb2, Hdb1. apply lookup_after_increments.
Qed.

(** C8. In a run on a non-empty batch in which the store answers every
    call, the snapshot is built after all the increments: the handler's
    client calls are the increments followed by one read per distinct merchant
    of the batch and nothing else, the reads leave the table as the increments
    left it, and the snapshot maps every merchant of the batch to its counter
    in that table (0 when it has none). The detectors take the snapshot as a
    value and the handler issues no client call after it. *)
Theorem C8_snapshot_after_increments
    (ci : list ImportanceEntry) (bottom : Q) (env : BatchEnv)
    (batch : list TransactionRecord) (batch_id : Z) (w0 : World) :
  batch ≠ [] → fault_free w0 →
  ∃ w1 w2 snapshot,
    update_merchant_counts (merchant_counts_in_batch batch) w0 = (Returned tt, w1) ∧
    merchant_total_txns_map (distinct_merchants_in_batch batch) ∅ w1 = (Returned snapshot, w2) ∧
    process_batch ci bottom env batch batch_id w0 =
      write_detections env batch_id
        (partitions_of (partition_sizes env)
           (map (stamp env)
              (pat1_detections bottom snapshot batch ci
               ++ pat2_detections batch ++ pat3_detections batch))) w2 ∧
    calls w2 = calls w0 ++ map increment_call (merchant_counts_in_batch batch)
                        ++ map Read (distinct_merchants_in_batch batch) ∧
    calls (snd (process_batch ci bottom env batch batch_id w0)) = calls w2 ∧
    NoDup (distinct_merchants_in_batch batch) ∧
    (∀ m, m ∈ distinct_merchants_in_batch batch ↔ m ∈ map merchant batch) ∧
    db w2 = db w1 ∧
    (∀ m, m ∈ map merchant batch →
       snapshot !! m = Some (default 0 (select_sql m (db w1)))) ∧
    (∀ k : string, Some k ∈ map merchant batch →
       snapshot !! Some k =
       Some (default 0 (db w0 !! k) + merchant_count batch (Some k))).
Proof.
  intros Hne Hff.
  destruct (process_batch_run ci bottom env batch batch_id w0 Hne Hff)
    as (w1 & w2 & w3 & snapshot & Hrun1 & Hdb1 & Hcalls1 & Hrun2 & Hsnap & Hdb2 & Hcalls2
        & Hpb & Hrun & Hdb3 & Hcalls3).
  exists w1, w2, snapshot.
  split; [done |]. split; [done |]. split; [done |].
  split; [by rewrite Hcalls2, Hcalls1, <- app_assoc |].
  split; [by rewrite Hrun |].
  split; [apply NoDup_remove_dups |].
  split; [intros m; apply elem_of_remove_dups |].
  split; [done |].
  assert (Hlook : ∀ m, m ∈ map merchant batch →
            snapshot !! m = Some (default 0 (select_sql m (db w1)))).
  { intros m Hm. rewrite Hsnap, lookup_foldl_record_read.
    rewrite decide_True; [done |]. by apply elem_of_remove_dups. }
  split; [exact Hlook |].
  intros k Hk. rewrite (Hlook _ Hk). simpl.
  rewrite Hdb1, lookup_after_increments, decide_True by done.
  by destruct (db w0 !! k).
Qed.

(** * Output writer: properties *)

Lemma concat_alter_snoc {A} (out : list (list A)) (i : nat) (r : A) :
  (i < length out)%nat →
  concat (alter (λ part, part ++ [r]) i out) ≡ₚ concat out ++ [r].
Proof.
  revert i. induction out as [|part out IH]; intros i Hi; [simpl in Hi; lia |].
  destruct i as [|i].
  - simpl. rewrite <- !app_assoc. apply Permutation_app_head, Permutation_app_comm.
  - change (part ++ concat (alter (λ part, part ++ [r]) i out) ≡ₚ (part ++ concat out) ++ [r]).
    rewrite IH by (simpl in Hi; lia). by rewrite app_assoc.
Qed.

Lemma length_deal {A} (n position : nat) (rows : list A) (out : list (list A)) :
  length (deal n position rows out) = length out.
Proof.
  revert position out. induction rows as [|r rows IH]; intros position out; [done |].
  simpl. by rewrite IH, length_alter.
Qed.

Lemma concat_deal {A} (n position : nat) (rows : list A) (out : list (list A)) :
  (0 < n)%nat → length out = n →
  concat (deal n position rows out) ≡ₚ concat out ++ rows.
Proof.
  intros Hn. revert position out.
  induction rows as [|r rows IH]; intros position out Hlen; simpl.
  - by rewrite app_nil_r.
  - rewrite IH by (by rewrite length_alter).
    rewrite concat_alter_snoc.
    + by rewrite <- app_assoc.
    + rewrite Hlen. apply Nat.mod_upper_bound. lia.
Qed.

Lemma length_repartition_from {A} n start i (df : list (list A)) out :
  length (repartition_from n start i df out) = length out.
Proof.
  revert i out. induction df as [|rows df IH]; intros i out; [done |].
  simpl. by rewrite IH, length_deal.
Qed.

Lemma concat_repartition_from {A} n start i (df : list (list A)) out :
  (0 < n)%nat → length out = n →
  concat (repartition_from n start i df out) ≡ₚ concat out ++ concat df.
Proof.
  intros Hn. revert i out.
  induction df as [|rows df IH]; intros i out Hlen; simpl.
  - by rewrite app_nil_r.
  - rewrite IH by (by rewrite length_deal).
    rewrite concat_deal by done. by rewrite <- app_assoc.
Qed.

Lemma length_repartition {A} n start (df : list (list A)) :
  length (repartition n start df) = n.
Proof.
  unfold repartition. by rewrite length_repartition_from, length_replicate.
Qed.

Lemma concat_replicate_nil {A} n : concat (replicate n ([] : list A)) = [].
Proof. induction n as [|n IH]; [done |]. simpl. exact IH. Qed.

Lemma concat_repartition {A} n start (df : list (list A)) :
  (0 < n)%nat → concat (repartition n start df) ≡ₚ concat df.
Proof.
  intros Hn. unfold repartition.
  rewrite concat_repartition_from by (done || apply length_replicate).
  by rewrite concat_replicate_nil.
Qed.

Lemma num_partitions_for_bounds (num_rows : nat) :
  (0 < num_rows)%nat →
  (1 ≤ num_partitions_for num_rows)%nat ∧
  (num_rows ≤ num_partitions_for num_rows * DETECTION_BATCH_SIZE)%nat ∧
  ((num_partitions_for num_rows - 1) * DETECTION_BATCH_SIZE < num_rows)%nat.
Proof.
  intros Hpos. unfold num_partitions_for, DETECTION_BATCH_SIZE.
  pose proof (Nat.div_mod_eq (num_rows + 50 - 1) 50) as Hdm.
  pose proof (Nat.mod_upper_bound (num_rows + 50 - 1) 50) as Hmod.
  lia.
Qed.

Lemma write_detections_empty (env : BatchEnv) (batch_id : Z)
    (final_detections : list (list Detection)) (w : World) :
  concat final_detections = [] →
  write_detections env batch_id final_detections w = (Returned tt, w).
Proof. intros Hnil. unfold write_detections. by rewrite bool_decide_true. Qed.

Lemma deal_position_mod {A} (n position : nat) (rows : list A) (out : list (list A)) :
  deal n position rows out = deal n (position mod n) rows out.
Proof.
  revert position out. induction rows as [|r rows IH]; intros position out; [done |].
  simpl. rewrite (IH (S position)), (IH (S (position mod n))).
  replace (S (position mod n) mod n)%nat with (S position mod n)%nat; [done |].
  change (S (position mod n)) with (1 + position mod n)%nat.
  change (S position) with (1 + position)%nat.
  by rewrite Nat.Div0.add_mod_idemp_r.
Qed.

(** Whatever the start position, one partition of 125 rows is dealt into
    parts of 41, 42 and 42 rows, in some order. *)
Lemma deal_125_balanced (start : nat) :
  map length (repartition 3 (λ _, start) [sample_125]) = [41; 42; 42]%nat ∨
  map length (repartition 3 (λ _, start) [sample_125]) = [42; 41; 42]%nat ∨
  map length (repartition 3 (λ _, start) [sample_125]) = [42; 42; 41]%nat.
Proof.
  change (repartition 3 (λ _, start) [sample_125])
    with (deal 3 start sample_125 (replicate 3 [])).
  rewrite deal_position_mod.
  assert (Hlt : (start mod 3 < 3)%nat) by (apply Nat.mod_upper_bound; lia).
  destruct (start mod 3)%nat as [|[|[|k]]]; [| | | lia];
    first [ left; vm_compute; reflexivity
          | right; left; vm_compute; reflexivity
          | right; right; vm_compute; reflexivity ].
Qed.

Lemma Z_div_eq_by (a n q : Z) : 0 < n → n * q <= a < n * q + n → a / n = q.
Proof.
  intros Hn Ha. symmetry. apply (Z.div_unique a n q (a - n * q)); lia.
Qed.

Lemma hit_step (n k x : Z) :
  0 < n → 0 <= k < n →
  (x - k) / n - (x - 1 - k) / n = if decide (x mod n = k) then 1 else 0.
Proof.
  intros Hn Hk.
  pose proof (Z.div_mod x n ltac:(lia)) as Hx.
  pose proof (Z.mod_pos_bound x n Hn) as Hr.
  set (q := x / n) in *. set (r := x mod n) in *.
  destruct (decide (r = k)) as [Heq|Hne].
  - rewrite (Z_div_eq_by (x - k) n q), (Z_div_eq_by (x - 1 - k) n (q - 1)); lia.
  - destruct (Z_lt_le_dec k r).
    + rewrite (Z_div_eq_by (x - k) n q), (Z_div_eq_by (x - 1 - k) n q); lia.
    + rewrite (Z_div_eq_by (x - k) n (q - 1)), (Z_div_eq_by (x - 1 - k) n (q - 1)); lia.
Qed.

Lemma hits_closed_form (n position len k : nat) :
  (0 < n)%nat → (k < n)%nat →
  Z.of_nat (hits n position len k) =
  (Z.of_nat (position + len) - Z.of_nat k) / Z.of_nat n
  - (Z.of_nat position - Z.of_nat k) / Z.of_nat n.
Proof.
  intros Hn Hk. revert position. induction len as [|len IH]; intros position.
  - rewrite Nat.add_0_r. simpl. lia.
  - simpl hits. rewrite Nat2Z.inj_add, IH.
    replace (S position + len)%nat with (position + S len)%nat by lia.
    pose proof (hit_step (Z.of_nat n) (Z.of_nat k) (Z.of_nat (S position))
                  ltac:(lia) ltac:(lia)) as Hstep.
    replace (Z.of_nat (S position) - 1 - Z.of_nat k)
      with (Z.of_nat position - Z.of_nat k) in Hstep by lia.
    rewrite <- Nat2Z.inj_mod in Hstep.
    destruct (decide ((S position mod n)%nat = k)) as [Heq|Hne].
    + rewrite decide_True in Hstep by (by rewrite Heq). lia.
    + rewrite decide_False in Hstep by (intros ?%Nat2Z.inj; done). lia.
Qed.

Lemma hits_bound (n position len k : nat) :
  (0 < n)%nat → (hits n position len k ≤ (len + n - 1) / n)%nat.
Proof.
  intros Hn. destruct (decide (k < n)%nat) as [Hk|Hk].
  - apply Nat2Z.inj_le. rewrite hits_closed_form by done.
    rewrite Nat2Z.inj_div, Nat2Z.inj_sub, !Nat2Z.inj_add by lia.
    set (a := Z.of_nat position - Z.of_nat k).
    replace (Z.of_nat position + Z.of_nat len - Z.of_nat k) with (a + Z.of_nat len) by lia.
    pose proof (Z.div_mod a (Z.of_nat n) ltac:(lia)) as Ha.
    pose proof (Z.mod_pos_bound a (Z.of_nat n) ltac:(lia)) as Hr.
    set (q := a / Z.of_nat n) in *. set (r := a mod Z.of_nat n) in *.
    replace (a + Z.of_nat len) with (q * Z.of_nat n + (r + Z.of_nat len)) by lia.
    rewrite Z.div_add_l by lia.
    assert ((r + Z.of_nat len) / Z.of_nat n
            <= (Z.of_nat len + Z.of_nat n - Z.of_nat 1) / Z.of_nat n)
      by (apply Z.div_le_mono; lia).
    lia.
  - assert (hits n position len k = 0)%nat as ->; [| lia].
    revert position. induction len as [|len IH]; intros position; [done |].
    simpl. rewrite IH. rewrite decide_False; [done |].
    intros <-. apply Hk, Nat.mod_upper_bound. lia.
Qed.

Lemma length_deal_part {A} (n position : nat) (rows : list A) (out : list (list A)) (k : nat) :
  length <$> (deal n position rows out !! k) =
  (λ part, length part + hits n position (length rows) k)%nat <$> (out !! k).
Proof.
  revert position out. induction rows as [|r rows IH]; intros position out.
  - simpl. destruct (out !! k); simpl; [f_equal; lia | done].
  - simpl deal. rewrite IH, list_lookup_alter. simpl length. simpl hits.
    destruct (decide ((S position mod n)%nat = k)) as [Heq|Hne].
    + subst k. destruct (out !! (S position mod n)%nat); simpl; [| done].
      rewrite length_app. simpl. f_equal. lia.
    + by destruct (out !! k).
Qed.

Lemma one_partition_fills_no_part {A} (start : nat → nat) (rows : list A) :
  Forall (λ part, (length part ≤ DETECTION_BATCH_SIZE)%nat)
         (repartition (num_partitions_for (length rows)) start [rows]).
Proof.
  apply Forall_lookup. intros k part Hpart.
  unfold repartition in Hpart. simpl in Hpart.
  pose proof (length_deal_part (num_partitions_for (length rows)) (start 0%nat) rows
                (replicate (num_partitions_for (length rows)) []) k) as Hlen.
  rewrite Hpart in Hlen. simpl in Hlen.
  destruct (replicate _ _ !! k) as [part0|] eqn:Hk; [| done].
  apply lookup_replicate in Hk as [-> Hk]. simpl in Hlen. injection Hlen as ->.
  assert (Hn : (1 ≤ num_partitions_for (length rows))%nat)
    by (unfold num_partitions_for; lia).
  etrans; [apply hits_bound; lia |].
  assert (Hup : (length rows ≤ num_partitions_for (length rows) * DETECTION_BATCH_SIZE)%nat).
  { destruct (decide (length rows = 0%nat)) as [H0|H0].
    - rewrite H0 at 1. lia.
    - apply num_partitions_for_bounds. lia. }
  assert ((length rows + num_partitions_for (length rows) - 1) / num_partitions_for (length rows)
          < S DETECTION_BATCH_SIZE)%nat; [| lia].
  apply Nat.Div0.div_lt_upper_bound. unfold DETECTION_BATCH_SIZE in *. lia.
Qed.

Example two_partitions_can_overfill_a_part :
  map length (repartition (num_partitions_for 100) (λ _, 0%nat) [seq 0 99; [99%nat]])
  = [49; 51]%nat.
Proof. vm_compute. reflexivity. Qed.

(** C3, as amended. A non-empty detection set is written as one new folder
    of exactly [max 1 (ceil (n / DETECTION_BATCH_SIZE))] partitions, the rows
    dealt round-robin; the rows of the partitions taken together are the
    detection set, each row once. For 125 detections that is 3 partitions.
    When the detections lie in one input partition, no part has more than
    [DETECTION_BATCH_SIZE] rows. *)
Theorem C3_writer_partitions
    (env : BatchEnv) (batch_id : Z) (final_detections : list (list Detection)) (w : World) :
  concat final_detections ≠ [] →
  let n := length (concat final_detections) in
  ∃ folder,
    write_detections env batch_id final_detections w =
      (Returned tt, {| db := db w; calls := calls w; faults := faults w;
                       written := written w ++ [folder] |}) ∧
    folder_batch_id folder = batch_id ∧ folder_uuid folder = file_uuid env ∧
    length (part_files folder) = num_partitions_for n ∧
    (n ≤ num_partitions_for n * DETECTION_BATCH_SIZE)%nat ∧
    ((num_partitions_for n - 1) * DETECTION_BATCH_SIZE < n)%nat ∧
    (n = 125%nat → length (part_files folder) = 3%nat) ∧
    concat (part_files folder) ≡ₚ concat final_detections ∧
    (∀ rows, final_detections = [rows] →
       Forall (λ part, (length part ≤ DETECTION_BATCH_SIZE)%nat) (part_files folder)).
Proof.
  intros Hne n.
  assert (Hpos : (0 < n)%nat).
  { subst n. destruct (concat final_detections); [done | simpl; lia]. }
  destruct (num_partitions_for_bounds n Hpos) as (H1 & H2 & H3).
  eexists. unfold write_detections.
  rewrite bool_decide_false by done. fold n. rewrite bool_decide_true by done.
  split; [reflexivity |]. simpl.
  rewrite length_repartition.
  split; [done |]. split; [done |]. split; [done |]. split; [done |]. split; [done |].
  split; [by intros -> |].
  split; [apply concat_repartition; lia |].
  intros rows ->. subst n. simpl. rewrite app_nil_r.
  apply one_partition_fills_no_part.
Qed.

(** C3, refuted as stated: 125 detections are written as 3 parts of 41, 42
    and 42 rows, not of 50, 50 and 25, and the first part is not the first
    rows of the set. *)
Lemma C3_125_rows_are_dealt_evenly :
  let outcome := write_detections sample_env 7 [sample_125] empty_world in
  let units := flat_map part_files (written (snd outcome)) in
  map length units = [41; 42; 42]%nat ∧
  map length units ≠ [50; 50; 25]%nat ∧
  units !! 0%nat ≠ Some (take 41 sample_125).
Proof.
  cbv zeta.
  assert (Hsizes : map length
    (flat_map part_files (written (snd (write_detections sample_env 7 [sample_125] empty_world))))
    = [41; 42; 42]%nat) by (vm_compute; reflexivity).
  split; [exact Hsizes |]. split; [rewrite Hsizes; discriminate |].
  vm_compute. discriminate.
Qed.

(** * Instances *)

(** The cut points of the weights 1..100, given in descending order. *)
Lemma C6_cut_points_of_1_to_100 :
  let ws := rev weights_1_to_100 in
  ws ≠ [] ∧
  Sorted Qle (sort_weights ws) ∧ sort_weights ws ≡ₚ ws ∧
  (∃ b, sort_weights ws !! (length ws * 1 / 100)%nat = Some b ∧
        bottom_1_percentile_weight_threshold ws = Some b ∧
        (length (filter (λ w, (w < b)%Q) ws) ≤ length ws * 1 / 100)%nat ∧
        (length ws * 1 / 100 < length (filter (λ w, (w <= b)%Q) ws))%nat) ∧
  (∃ t, sort_weights ws !! (length ws * 99 / 100)%nat = Some t ∧
        top_1_percentile_weight_threshold ws = Some (Weight t) ∧
        (length (filter (λ w, (w < t)%Q) ws) ≤ length ws * 99 / 100)%nat ∧
        (length ws * 99 / 100 < length (filter (λ w, (w <= t)%Q) ws))%nat).
Proof.
  assert (Hne : rev weights_1_to_100 ≠ []).
  { intros H. vm_compute in H. discriminate H. }
  split; [exact Hne |].
  exact (C6_percentile_cut_points (rev weights_1_to_100) Hne).
Defined.

Example bottom_of_1_to_100 :
  bottom_1_percentile_weight_threshold (rev weights_1_to_100) = Some (2 # 1)%Q.
Proof. vm_compute. reflexivity. Qed.

Example top_of_1_to_100 :
  top_1_percentile_weight_threshold (rev weights_1_to_100) = Some (Weight (100 # 1)%Q).
Proof. vm_compute. reflexivity. Qed.

(** One row whose pair has weight exactly [bottom], with count 50001. *)
Lemma C1_at_the_boundary :
  let t := txn "C1" "M" "M1" (10 # 1) in
  let snapshot : gmap (option string) Z := {[ Some "M1"%string := 50001 ]} in
  t ∈ [t] ∧
  (upgrade (customer t) (merchant t) ∈ pat1_detections (1 # 2) snapshot [t] [sample_entry (1 # 2)] ↔
     (∃ e, e ∈ [sample_entry (1 # 2)] ∧ join_on t e ∧ (weight e <= 1 # 2)%Q) ∧
     default 0 (snapshot !! merchant t) > 50000).
Proof.
  intros t snapshot.
  assert (Hin : t ∈ [t]) by apply list_elem_of_here.
  split; [exact Hin |].
  exact (proj1 (C1_pat1_iff (1 # 2) snapshot [t] [sample_entry (1 # 2)] t Hin)).
Defined.

Example pat1_fires_at_weight_bottom_count_50001 :
  pat1_detections (1 # 2) {[ Some "M1"%string := 50001 ]}
    [txn "C1" "M" "M1" (10 # 1)] [sample_entry (1 # 2)]
  = [upgrade (Some "C1"%string) (Some "M1"%string)].
Proof. vm_compute. reflexivity. Qed.

Example pat1_silent_at_count_50000 :
  pat1_detections (1 # 2) {[ Some "M1"%string := 50000 ]}
    [txn "C1" "M" "M1" (10 # 1)] [sample_entry (1 # 2)]
  = [].
Proof. vm_compute. reflexivity. Qed.

Example pat1_silent_without_reference_weight :
  pat1_detections (1 # 2) {[ Some "M2"%string := 50001 ]}
    [txn "C2" "F" "M2" (10 # 1)] [sample_entry (1 # 2)]
  = [].
Proof. vm_compute. reflexivity. Qed.

Lemma fault_free_empty_world : fault_free empty_world.
Proof. apply Forall_nil_2. Defined.

Lemma sample_batch_nonempty : sample_batch ≠ [].
Proof. discriminate. Defined.

(** The sample batch, run against an empty table that answers every call. *)
Lemma C7_on_the_sample_batch :
  let run := process_batch [] 0 sample_env sample_batch 7 empty_world in
  sample_batch ≠ [] ∧ fault_free empty_world ∧
  fst run = Returned tt ∧
  NoDup (map fst (merchant_counts_in_batch sample_batch)) ∧
  (∀ k : string,
     db (snd run) !! k =
     if decide (Some k ∈ map merchant sample_batch)
     then match db empty_world !! k with
          | Some total => Some (total + merchant_count sample_batch (Some k))
          | None => Some (merchant_count sample_batch (Some k))
          end
     else db empty_world !! k).
Proof.
  intros run.
  split; [exact sample_batch_nonempty |]. split; [exact fault_free_empty_world |].
  destruct (C7_one_presummed_increment_per_merchant [] 0 sample_env sample_batch 7 empty_world
              sample_batch_nonempty fault_free_empty_world)
    as (Hret & _ & Hnd & _ & _ & Hdb).
  split; [exact Hret |]. split; [exact Hnd |]. exact Hdb.
Defined.

Example counters_after_the_sample_batch :
  let run := process_batch [] 0 sample_env sample_batch 7 empty_world in
  db (snd run) !! "M1"%string = Some 2 ∧ db (snd run) !! "M2"%string = Some 1 ∧
  calls (snd run) =
    [Increment (Some "M2"%string) 1; Increment (Some "M1"%string) 2;
     Read (Some "M2"%string); Read (Some "M1"%string)].
Proof. vm_compute. done. Qed.

(** The snapshot of the sample batch, run against an empty table. *)
Lemma C8_on_the_sample_batch :
  sample_batch ≠ [] ∧ fault_free empty_world ∧
  ∃ w2 (snapshot : gmap (option string) Z),
    calls (snd (process_batch [] 0 sample_env sample_batch 7 empty_world)) = calls w2 ∧
    calls w2 = calls empty_world ++ map increment_call (merchant_counts_in_batch sample_batch)
                 ++ map Read (distinct_merchants_in_batch sample_batch) ∧
    (∀ k : string, Some k ∈ map merchant sample_batch →
       snapshot !! Some k =
       Some (default 0 (db empty_world !! k) + merchant_count sample_batch (Some k))).
Proof.
  split; [exact sample_batch_nonempty |]. split; [exact fault_free_empty_world |].
  destruct (C8_snapshot_after_increments [] 0 sample_env sample_batch 7 empty_world
              sample_batch_nonempty fault_free_empty_world)
    as (w1 & w2 & snapshot & _ & _ & _ & Hcalls & Hlast & _ & _ & _ & _ & Hsnap).
  exists w2, snapshot. split; [exact Hlast |]. split; [exact Hcalls |]. exact Hsnap.
Defined.

(** 125 detections lying in one input partition. *)
Lemma C3_on_125_detections :
  concat [sample_125] ≠ [] ∧
  ∃ folder,
    written (snd (write_detections sample_env 7 [sample_125] empty_world)) = [folder] ∧
    length (part_files folder) = 3%nat ∧
    concat (part_files folder) ≡ₚ sample_125 ∧
    Forall (λ part, (length part ≤ DETECTION_BATCH_SIZE)%nat) (part_files folder).
Proof.
  assert (Hne : concat [sample_125] ≠ []).
  { intros H. vm_compute in H. discriminate H. }
  split; [exact Hne |].
  destruct (C3_writer_partitions sample_env 7 [sample_125] empty_world Hne)
    as (folder & Hrun & _ & _ & _ & _ & _ & H125 & Hperm & Hone).
  exists folder. rewrite Hrun. split; [reflexivity |].
  split; [apply H125; vm_compute; reflexivity |].
  split; [| by apply (Hone sample_125)].
  etrans; [exact Hperm |].
  change (concat [sample_125]) with (sample_125 ++ []). by rewrite app_nil_r.
Defined.

(** * Reference data: further properties of the cut points *)

Lemma cut_points_lookup (ws : list Q) :
  ws ≠ [] →
  ∃ b t, sort_weights ws !! bottom_index (length ws) = Some b ∧
         sort_weights ws !! top_index (length ws) = Some t ∧
         bottom_1_percentile_weight_threshold ws = Some b ∧
         top_1_percentile_weight_threshold ws = Some (Weight t).
Proof.
  intros Hne.
  assert (Hpos : (0 < length ws)%nat) by (destruct ws; [done | simpl; lia]).
  pose proof (sort_weights_length ws) as Hlen.
  destruct (lookup_lt_is_Some_2 (sort_weights ws) (bottom_index (length ws))) as [b Hb].
  { rewrite Hlen. by apply bottom_index_lt. }
  destruct (lookup_lt_is_Some_2 (sort_weights ws) (top_index (length ws))) as [t Ht].
  { rewrite Hlen. by apply top_index_lt. }
  exists b, t. split; [done |]. split; [done |].
  unfold bottom_1_percentile_weight_threshold, top_1_percentile_weight_threshold, py_getitem.
  rewrite Hlen, Hb, Ht.
  destruct (sort_weights ws) eqn:Hs; [simpl in Hlen; lia | done].
Qed.

Lemma sorted_lookup_le (s : list Q) (i j : nat) (x y : Q) :
  StronglySorted Qle s → (i ≤ j)%nat → s !! i = Some x → s !! j = Some y → (x <= y)%Q.
Proof.
  intros Hs. revert i j. induction Hs as [|z l Hl IH Hz]; intros i j Hij Hi Hj; [done |].
  destruct i as [|i], j as [|j]; simpl in *; try lia.
  - injection Hi as ->. injection Hj as ->. apply Qle_refl.
  - injection Hi as ->. rewrite Forall_forall in Hz. apply Hz.
    by apply list_elem_of_lookup_2 in Hj.
  - apply (IH i j); [lia | done | done].
Qed.

Lemma sort_weights_sorted (ws : list Q) : StronglySorted Qle (sort_weights ws).
Proof. apply StronglySorted_merge_sort; apply _. Qed.

Lemma elem_of_sort_weights (ws : list Q) (x : Q) : x ∈ sort_weights ws ↔ x ∈ ws.
Proof. unfold sort_weights. by rewrite merge_sort_Permutation. Qed.

(** X1. The cut points of a non-empty weight list are weights of the list,
    and the bottom one is at most the top one. *)
Theorem cut_points_are_weights_in_order (ws : list Q) :
  ws ≠ [] →
  ∃ b t, bottom_1_percentile_weight_threshold ws = Some b ∧
         top_1_percentile_weight_threshold ws = Some (Weight t) ∧
         b ∈ ws ∧ t ∈ ws ∧ (b <= t)%Q.
Proof.
  intros Hne. destruct (cut_points_lookup ws Hne) as (b & t & Hb & Ht & Hbot & Htop).
  exists b, t. split; [done |]. split; [done |].
  split; [apply elem_of_sort_weights; by eapply list_elem_of_lookup_2 |].
  split; [apply elem_of_sort_weights; by eapply list_elem_of_lookup_2 |].
  apply (sorted_lookup_le (sort_weights ws) (bottom_index (length ws)) (top_index (length ws)));
    [apply sort_weights_sorted | | done | done].
  unfold bottom_index, top_index. apply Nat.Div0.div_le_mono. lia.
Qed.

Lemma cut_points_of_three_weights :
  [3 # 1; 1 # 1; 2 # 1]%Q ≠ [] ∧
  ∃ b t, bottom_1_percentile_weight_threshold [3 # 1; 1 # 1; 2 # 1]%Q = Some b ∧
         top_1_percentile_weight_threshold [3 # 1; 1 # 1; 2 # 1]%Q = Some (Weight t) ∧
         b ∈ [3 # 1; 1 # 1; 2 # 1]%Q ∧ t ∈ [3 # 1; 1 # 1; 2 # 1]%Q ∧ (b <= t)%Q.
Proof.
  assert (Hne : [3 # 1; 1 # 1; 2 # 1]%Q ≠ []) by discriminate.
  split; [exact Hne |].
  exact (cut_points_are_weights_in_order [3 # 1; 1 # 1; 2 # 1]%Q Hne).
Defined.

Lemma count_at_most_le_count_below (ws ws' : list Q) (b b' : Q) :
  Forall2 Qle ws ws' → (b' < b)%Q →
  (length (filter (λ w, (w <= b')%Q) ws') ≤ length (filter (λ w, (w < b)%Q) ws))%nat.
Proof.
  intros Hall Hlt. induction Hall as [|w w' ws ws' Hw Hall IH]; [done |].
  rewrite !filter_cons. destruct (decide (w' <= b')%Q) as [Hw'|Hw'].
  - rewrite decide_True; [simpl; lia |].
    eapply Qle_lt_trans; [| exact Hlt]. by eapply Qle_trans.
  - destruct (decide (w < b)%Q); simpl; lia.
Qed.

Lemma sorted_lookup_mono (ws ws' : list Q) (i : nat) (v v' : Q) :
  Forall2 Qle ws ws' →
  sort_weights ws !! i = Some v → sort_weights ws' !! i = Some v' → (v <= v')%Q.
Proof.
  intros Hall Hv Hv'.
  destruct (Qlt_le_dec v' v) as [Hlt|Hle]; [| done].
  exfalso.
  destruct (rank_of_sorted_lookup ws i v Hv) as [Hbelow _].
  destruct (rank_of_sorted_lookup ws' i v' Hv') as [_ Hupto].
  pose proof (count_at_most_le_count_below ws ws' v v' Hall Hlt). lia.
Qed.

(** X2. Raising weights never lowers a cut point: when every weight of one
    list is at most the weight at the same place of another, both cut points
    of the first are at most those of the second. *)
Theorem cut_points_are_monotone (ws ws' : list Q) :
  ws ≠ [] → Forall2 Qle ws ws' →
  ∃ b t b' t',
    bottom_1_percentile_weight_threshold ws = Some b ∧
    top_1_percentile_weight_threshold ws = Some (Weight t) ∧
    bottom_1_percentile_weight_threshold ws' = Some b' ∧
    top_1_percentile_weight_threshold ws' = Some (Weight t') ∧
    (b <= b')%Q ∧ (t <= t')%Q.
Proof.
  intros Hne Hall.
  assert (Hne' : ws' ≠ []).
  { intros ->. apply Forall2_length in Hall. by destruct ws. }
  destruct (cut_points_lookup ws Hne) as (b & t & Hb & Ht & Hbot & Htop).
  destruct (cut_points_lookup ws' Hne') as (b' & t' & Hb' & Ht' & Hbot' & Htop').
  rewrite <- (Forall2_length _ _ _ Hall) in Hb', Ht'.
  exists b, t, b', t'. repeat (split; [done |]). split.
  - by apply (sorted_lookup_mono ws ws' (bottom_index (length ws))).
  - by apply (sorted_lookup_mono ws ws' (top_index (length ws))).
Qed.

Lemma cut_points_after_raising_a_weight :
  [3 # 1; 1 # 1; 2 # 1]%Q ≠ [] ∧ Forall2 Qle [3 # 1; 1 # 1; 2 # 1]%Q [3 # 1; 5 # 1; 2 # 1]%Q ∧
  ∃ b t b' t',
    bottom_1_percentile_weight_threshold [3 # 1; 1 # 1; 2 # 1]%Q = Some b ∧
    top_1_percentile_weight_threshold [3 # 1; 1 # 1; 2 # 1]%Q = Some (Weight t) ∧
    bottom_1_percentile_weight_threshold [3 # 1; 5 # 1; 2 # 1]%Q = Some b' ∧
    top_1_percentile_weight_threshold [3 # 1; 5 # 1; 2 # 1]%Q = Some (Weight t') ∧
    (b <= b')%Q ∧ (t <= t')%Q.
Proof.
  assert (Hne : [3 # 1; 1 # 1; 2 # 1]%Q ≠ []) by discriminate.
  assert (Hall : Forall2 Qle [3 # 1; 1 # 1; 2 # 1]%Q [3 # 1; 5 # 1; 2 # 1]%Q).
  { repeat constructor; unfold Qle; simpl; lia. }
  split; [exact Hne |]. split; [exact Hall |].
  exact (cut_points_are_monotone _ _ Hne Hall).
Defined.

(** X3. With fewer than 100 reference weights the bottom cut point is the
    smallest weight and the top cut point the largest. *)
Theorem cut_points_of_a_short_list (ws : list Q) :
  ws ≠ [] → (length ws < 100)%nat →
  ∃ b t, bottom_1_percentile_weight_threshold ws = Some b ∧
         top_1_percentile_weight_threshold ws = Some (Weight t) ∧
         b ∈ ws ∧ t ∈ ws ∧
         Forall (λ w, (b <= w)%Q ∧ (w <= t)%Q) ws.
Proof.
  intros Hne Hshort. destruct (cut_points_lookup ws Hne) as (b & t & Hb & Ht & Hbot & Htop).
  exists b, t. split; [done |]. split; [done |].
  split; [apply elem_of_sort_weights; by eapply list_elem_of_lookup_2 |].
  split; [apply elem_of_sort_weights; by eapply list_elem_of_lookup_2 |].
  assert (Hpos : (0 < length ws)%nat) by (destruct ws; [done | simpl; lia]).
  assert (Hbi : bottom_index (length ws) = 0%nat).
  { unfold bottom_index. apply Nat.div_small. lia. }
  assert (Hti : top_index (length ws) = (length ws - 1)%nat).
  { unfold top_index. symmetry.
    apply (Nat.div_unique _ _ _ (100 - length ws)); lia. }
  rewrite Hbi in Hb. rewrite Hti in Ht.
  apply Forall_forall. intros w Hw. apply elem_of_sort_weights in Hw.
  apply list_elem_of_lookup_1 in Hw as [j Hj].
  pose proof (lookup_lt_Some _ _ _ Hj) as Hjlt. rewrite sort_weights_length in Hjlt.
  split.
  - apply (sorted_lookup_le (sort_weights ws) 0 j); [apply sort_weights_sorted | lia | done | done].
  - apply (sorted_lookup_le (sort_weights ws) j (length ws - 1));
      [apply sort_weights_sorted | lia | done | done].
Qed.

Lemma cut_points_of_three_weights_are_extremes :
  [3 # 1; 1 # 1; 2 # 1]%Q ≠ [] ∧ (length [3 # 1; 1 # 1; 2 # 1]%Q < 100)%nat ∧
  ∃ b t, bottom_1_percentile_weight_threshold [3 # 1; 1 # 1; 2 # 1]%Q = Some b ∧
         top_1_percentile_weight_threshold [3 # 1; 1 # 1; 2 # 1]%Q = Some (Weight t) ∧
         b ∈ [3 # 1; 1 # 1; 2 # 1]%Q ∧ t ∈ [3 # 1; 1 # 1; 2 # 1]%Q ∧
         Forall (λ w, (b <= w)%Q ∧ (w <= t)%Q) [3 # 1; 1 # 1; 2 # 1]%Q.
Proof.
  assert (Hne : [3 # 1; 1 # 1; 2 # 1]%Q ≠ []) by discriminate.
  assert (Hlen : (length [3 # 1; 1 # 1; 2 # 1]%Q < 100)%nat) by (simpl; lia).
  split; [exact Hne |]. split; [exact Hlen |].
  exact (cut_points_of_a_short_list _ Hne Hlen).
Defined.

(** * Runs under arbitrary faults *)

Lemma upsert_table_cases (f : Fault) (m : option string) (delta : Z) (db : gmap string Z) :
  snd (upsert_merchant_counts f m delta db) = db ∨
  snd (upsert_merchant_counts f m delta db) = apply_increment db (m, delta).
Proof.
  unfold upsert_merchant_counts, upsert_try, apply_increment. simpl.
  destruct f, (upsert_sql m delta db); simpl; auto.
Qed.

Lemma update_merchant_counts_any_faults rows w :
  NoDup (map fst rows) →
  written (snd (update_merchant_counts rows w)) = written w ∧
  ∀ k : string,
    db (snd (update_merchant_counts rows w)) !! k = db w !! k ∨
    ∃ delta, (Some k, delta) ∈ rows ∧
      db (snd (update_merchant_counts rows w)) !! k = Some (default 0 (db w !! k) + delta).
Proof.
  revert w. induction rows as [|[m delta] rows IH]; intros w Hnd; [simpl; auto |].
  simpl in Hnd. apply NoDup_cons in Hnd as [Hm Hnd].
  simpl. unfold mbind, M_bind, call_upsert. simpl.
  pose proof (upsert_table_cases (hd NoFault (faults w)) m delta (db w)) as Hcases.
  destruct (upsert_merchant_counts (hd NoFault (faults w)) m delta (db w)) as [r db1].
  simpl in Hcases.
  assert (Hstep : ∀ k : string, db1 !! k = db w !! k ∨
            (m = Some k ∧ db1 !! k = Some (default 0 (db w !! k) + delta))).
  { intros k. destruct Hcases as [-> | ->]; [by left |].
    rewrite lookup_apply_increment. destruct (decide (m = Some k)); [| by left].
    right. split; [done |]. by destruct (db w !! k). }
  destruct r as [[]|e]; simpl.
  - destruct (IH {| db := db1; calls := calls w ++ [Increment m delta];
                    faults := tl (faults w); written := written w |} Hnd) as [Hout Hdb].
    simpl in *. split; [done |]. intros k.
    destruct (Hdb k) as [Hsame | (d & Hd & Hk)].
    + rewrite Hsame. destruct (Hstep k) as [? | [-> ?]]; [by left |].
      right. exists delta. split; [left | done].
    + destruct (Hstep k) as [Hk1 | [-> _]].
      * right. exists d. split; [by right |]. by rewrite Hk, Hk1.
      * exfalso. apply Hm. apply list_elem_of_fmap. by exists (Some k, d).
  - split; [done |]. intros k.
    destruct (Hstep k) as [? | [-> ?]]; [by left |].
    right. exists delta. split; [left | done].
Qed.

Lemma merchant_total_txns_map_any_faults ms acc w :
  db (snd (merchant_total_txns_map ms acc w)) = db w ∧
  written (snd (merchant_total_txns_map ms acc w)) = written w.
Proof.
  revert acc w. induction ms as [|m ms IH]; intros acc w; [done |].
  simpl. unfold mbind, M_bind, call_get.
  destruct (get_merchant_total_transactions _ m (db w)) as [total|e]; [| done].
  destruct (IH (<[m := total]> acc)
               {| db := db w; calls := calls w ++ [Read m];
                  faults := tl (faults w); written := written w |}) as [Hdb Hout].
  done.
Qed.

Lemma write_detections_cases env batch_id df w :
  write_detections env batch_id df w = (Returned tt, w) ∨
  ∃ folder,
    write_detections env batch_id df w =
      (Returned tt, {| db := db w; calls := calls w; faults := faults w;
                       written := written w ++ [folder] |}) ∧
    folder_batch_id folder = batch_id ∧ folder_uuid folder = file_uuid env.
Proof.
  unfold write_detections. repeat case_bool_decide; eauto.
Qed.

(** What a run of the handler can do to the world, whatever the faults. *)
Lemma process_batch_any_faults ci (bottom : Q) env batch batch_id w :
  (∀ k : string,
     db (snd (process_batch ci bottom env batch batch_id w)) !! k = db w !! k ∨
     (Some k ∈ map merchant batch ∧
      db (snd (process_batch ci bottom env batch batch_id w)) !! k =
        Some (default 0 (db w !! k) + merchant_count batch (Some k)))) ∧
  (written (snd (process_batch ci bottom env batch batch_id w)) = written w ∨
   fst (process_batch ci bottom env batch batch_id w) = Returned tt ∧
   ∃ folder,
     written (snd (process_batch ci bottom env batch batch_id w)) = written w ++ [folder] ∧
     folder_batch_id folder = batch_id ∧ folder_uuid folder = file_uuid env).
Proof.
  destruct batch as [|t rest]; [simpl; auto |].
  set (batch := t :: rest).
  assert (Hrun : process_batch ci bottom env batch batch_id w =
    match update_merchant_counts (merchant_counts_in_batch batch) w with
    | (Returned _, w1) =>
        match merchant_total_txns_map (distinct_merchants_in_batch batch) ∅ w1 with
        | (Returned snapshot, w2) =>
            write_detections env batch_id
              (partitions_of (partition_sizes env)
                 (map (stamp env)
                    (pat1_detections bottom snapshot batch ci
                     ++ pat2_detections batch ++ pat3_detections batch))) w2
        | (Raised e, w2) => (Raised e, w2)
        end
    | (Raised e, w1) => (Raised e, w1)
    end) by reflexivity.
  rewrite Hrun. clear Hrun.
  destruct (update_merchant_counts_any_faults (merchant_counts_in_batch batch) w) as [Hout1 Hdb1].
  { rewrite merchant_counts_in_batch_keys. apply NoDup_remove_dups. }
  assert (Hdb1' : ∀ k : string,
     db (snd (update_merchant_counts (merchant_counts_in_batch batch) w)) !! k = db w !! k ∨
     (Some k ∈ map merchant batch ∧
      db (snd (update_merchant_counts (merchant_counts_in_batch batch) w)) !! k =
        Some (default 0 (db w !! k) + merchant_count batch (Some k)))).
  { intros k. destruct (Hdb1 k) as [? | (d & Hd & Hk)]; [by left |].
    apply elem_of_merchant_counts_in_batch in Hd as [Hin ->]. by right. }
  clear Hdb1.
  destruct (update_merchant_counts (merchant_counts_in_batch batch) w) as [[[]|e] w1];
    simpl in Hout1, Hdb1'; [| simpl; auto].
  destruct (merchant_total_txns_map_any_faults (distinct_merchants_in_batch batch) ∅ w1)
    as [Hdb2 Hout2].
  destruct (merchant_total_txns_map (distinct_merchants_in_batch batch) ∅ w1) as [[snapshot|e] w2];
    simpl in Hdb2, Hout2.
  - match goal with |- context [write_detections env batch_id ?df w2] =>
      destruct (write_detections_cases env batch_id df w2) as [-> | (folder & -> & Hid & Huuid)]
    end; simpl; rewrite Hdb2, Hout2, Hout1.
    + auto.
    + split; [done |]. right. split; [done |]. by exists folder.
  - simpl. rewrite Hdb2, Hout2, Hout1. auto.
Qed.

(** X4. Whatever the faults, a run of the handler leaves the counter of
    every merchant outside the batch as it was, and changes the counter of a
    merchant of the batch, if at all, by adding that merchant's row count:
    no counter is ever lowered. *)
Theorem counters_change_only_by_batch_counts
    (ci : list ImportanceEntry) (bottom : Q) (env : BatchEnv)
    (batch : list TransactionRecord) (batch_id : Z) (w : World) (k : string) :
  let db' := db (snd (process_batch ci bottom env batch batch_id w)) in
  (Some k ∉ map merchant batch → db' !! k = db w !! k) ∧
  (db' !! k = db w !! k ∨
   db' !! k = Some (default 0 (db w !! k) + merchant_count batch (Some k))) ∧
  (∀ old, db w !! k = Some old → ∃ new, db' !! k = Some new ∧ old <= new).
Proof.
  cbv zeta.
  destruct (process_batch_any_faults ci bottom env batch batch_id w) as [Hdb _].
  specialize (Hdb k).
  split; [| split].
  - intros Hout. by destruct Hdb as [? | [? _]].
  - destruct Hdb as [? | [_ ?]]; auto.
  - intros old Hold. destruct Hdb as [Hsame | [_ Hnew]].
    + exists old. by rewrite Hsame.
    + exists (old + merchant_count batch (Some k)). rewrite Hnew, Hold. simpl.
      split; [done |]. unfold merchant_count, count_rows. lia.
Qed.

(** X5. Whatever the faults, a run of the handler writes at most one folder,
    named by the batch id and the token, and only when it returns normally:
    an aborted batch writes nothing. *)
Theorem at_most_one_folder_and_none_when_aborted
    (ci : list ImportanceEntry) (bottom : Q) (env : BatchEnv)
    (batch : list TransactionRecord) (batch_id : Z) (w : World) :
  let run := process_batch ci bottom env batch batch_id w in
  (written (snd run) = written w ∨
   ∃ folder, written (snd run) = written w ++ [folder] ∧
             folder_batch_id folder = batch_id ∧ folder_uuid folder = file_uuid env) ∧
  (∀ e, fst run = Raised e → written (snd run) = written w).
Proof.
  cbv zeta.
  destruct (process_batch_any_faults ci bottom env batch batch_id w)
    as [_ [Hsame | (Hret & folder & Hnew & Hid & Huuid)]].
  - split; [by left |]. done.
  - split; [right; by exists folder |]. intros e He. congruence.
Qed.

(** * Runs in which every failure is absorbed *)

Lemma absorbed_only_hd w :
  absorbed_only w → hd NoFault (faults w) ≠ AtConnect ∧ hd NoFault (faults w) ≠ AtCursor.
Proof. unfold absorbed_only. destruct (faults w); [done |]. by inversion 1. Qed.

Lemma absorbed_only_tl w :
  absorbed_only w → Forall (λ f, f ≠ AtConnect ∧ f ≠ AtCursor) (tl (faults w)).
Proof. unfold absorbed_only. destruct (faults w); [done |]. by inversion 1. Qed.

Lemma upsert_returns_after_cursor (f : Fault) (m : option string) (delta : Z)
    (db : gmap string Z) :
  f ≠ AtConnect → f ≠ AtCursor → fst (upsert_merchant_counts f m delta db) = Returned tt.
Proof.
  intros Hc Hu. unfold upsert_merchant_counts, upsert_try.
  destruct f, (upsert_sql m delta db); done.
Qed.

Lemma get_returns_after_cursor (f : Fault) (m : option string) (db : gmap string Z) :
  f ≠ AtConnect → f ≠ AtCursor →
  ∃ total, get_merchant_total_transactions f m db = Returned total ∧
           (total = 0 ∨ total = default 0 (select_sql m db)).
Proof.
  intros Hc Hu. unfold get_merchant_total_transactions, get_try.
  destruct f; try done; simpl; eauto.
Qed.

Lemma update_merchant_counts_absorbed rows w :
  absorbed_only w →
  ∃ w', update_merchant_counts rows w = (Returned tt, w') ∧
        calls w' = calls w ++ map increment_call rows ∧
        absorbed_only w'.
Proof.
  revert w. induction rows as [|row rows IH]; intros w Hw.
  - exists w. simpl. by rewrite app_nil_r.
  - simpl. unfold mbind, M_bind, call_upsert.
    destruct (absorbed_only_hd w Hw) as [Hc Hu].
    pose proof (upsert_returns_after_cursor (hd NoFault (faults w)) row.1 row.2 (db w) Hc Hu)
      as Hret.
    destruct (upsert_merchant_counts (hd NoFault (faults w)) row.1 row.2 (db w)) as [r db1].
    simpl in Hret. subst r.
    destruct (IH {| db := db1; calls := calls w ++ [Increment row.1 row.2];
                    faults := tl (faults w); written := written w |})
      as (w' & Hrun & Hcalls & Hw').
    { by apply absorbed_only_tl. }
    exists w'. rewrite Hrun. split; [done |]. split; [| done].
    simpl in Hcalls. by rewrite Hcalls, <- app_assoc.
Qed.

Lemma merchant_total_txns_map_absorbed ms acc w :
  absorbed_only w →
  ∃ snapshot w', merchant_total_txns_map ms acc w = (Returned snapshot, w') ∧
        calls w' = calls w ++ map Read ms ∧
        absorbed_only w'.
Proof.
  revert acc w. induction ms as [|m ms IH]; intros acc w Hw.
  - exists acc, w. simpl. by rewrite app_nil_r.
  - simpl. unfold mbind, M_bind, call_get.
    destruct (absorbed_only_hd w Hw) as [Hc Hu].
    destruct (get_returns_after_cursor (hd NoFault (faults w)) m (db w) Hc Hu)
      as (total & -> & _).
    destruct (IH (<[m := total]> acc)
                 {| db := db w; calls := calls w ++ [Read m];
                    faults := tl (faults w); written := written w |})
      as (snapshot & w' & Hrun & Hcalls & Hw').
    { by apply absorbed_only_tl. }
    exists snapshot, w'. rewrite Hrun. split; [done |]. split; [| done].
    simpl in Hcalls. by rewrite Hcalls, <- app_assoc.
Qed.

(** X6. When no coming store failure happens before the cursor exists
    (failures of execute, commit and fetchone only), the batch is not
    aborted: the handler returns normally after issuing every increment and
    every read, in that order. *)
Theorem batch_completes_when_failures_are_absorbed
    (ci : list ImportanceEntry) (bottom : Q) (env : BatchEnv)
    (batch : list TransactionRecord) (batch_id : Z) (w : World) :
  absorbed_only w →
  let run := process_batch ci bottom env batch batch_id w in
  fst run = Returned tt ∧
  calls (snd run) = calls w ++ map increment_call (merchant_counts_in_batch batch)
                            ++ map Read (distinct_merchants_in_batch batch).
Proof.
  intros Hw. cbv zeta.
  destruct batch as [|t rest]; [simpl; by rewrite app_nil_r |].
  set (batch := t :: rest).
  destruct (update_merchant_counts_absorbed (merchant_counts_in_batch batch) w Hw)
    as (w1 & Hrun1 & Hcalls1 & Hw1).
  destruct (merchant_total_txns_map_absorbed (distinct_merchants_in_batch batch) ∅ w1 Hw1)
    as (snapshot & w2 & Hrun2 & Hcalls2 & _).
  assert (Hrun : process_batch ci bottom env batch batch_id w =
            write_detections env batch_id
              (partitions_of (partition_sizes env)
                 (map (stamp env)
                    (pat1_detections bottom snapshot batch ci
                     ++ pat2_detections batch ++ pat3_detections batch))) w2).
  { unfold process_batch, batch.
    unfold mbind at 1, M_bind at 1. fold batch. rewrite Hrun1.
    unfold mbind at 1, M_bind at 1. by rewrite Hrun2. }
  rewrite Hrun.
  match goal with |- context [write_detections env batch_id ?df w2] =>
    destruct (write_detections_run env batch_id df w2) as (w3 & -> & _ & Hcalls3 & _)
  end.
  simpl. split; [done |]. by rewrite Hcalls3, Hcalls2, Hcalls1, <- app_assoc.
Qed.

Lemma absorbed_world_is_absorbed :
  absorbed_only {| db := ∅; calls := []; faults := [AtExecute; AtCommit; AtFetchone];
                   written := [] |}.
Proof. repeat constructor; discriminate. Defined.

(** The sample batch against a store that fails three calls after the cursor. *)
Lemma sample_batch_completes_under_absorbed_failures :
  let w := {| db := ∅; calls := []; faults := [AtExecute; AtCommit; AtFetchone];
              written := [] |} in
  absorbed_only w ∧
  fst (process_batch [] 0 sample_env sample_batch 7 w) = Returned tt ∧
  calls (snd (process_batch [] 0 sample_env sample_batch 7 w)) =
    calls w ++ map increment_call (merchant_counts_in_batch sample_batch)
            ++ map Read (distinct_merchants_in_batch sample_batch).
Proof.
  split; [exact absorbed_world_is_absorbed |].
  exact (batch_completes_when_failures_are_absorbed [] 0 sample_env sample_batch 7 _
           absorbed_world_is_absorbed).
Defined.

(** * Composition of runs *)

Lemma process_batch_fault_free ci (bottom : Q) env batch batch_id w0 :
  batch ≠ [] → fault_free w0 →
  ∃ w3, process_batch ci bottom env batch batch_id w0 = (Returned tt, w3) ∧
        db w3 = foldl apply_increment (db w0) (merchant_counts_in_batch batch) ∧
        fault_free w3.
Proof.
  intros Hne Hff.
  destruct (update_merchant_counts_run (merchant_counts_in_batch batch) w0 Hff)
    as (w1 & Hrun1 & Hdb1 & _ & _ & Hff1).
  destruct (merchant_total_txns_map_run (distinct_merchants_in_batch batch) ∅ w1 Hff1)
    as (w2 & Hrun2 & Hdb2 & _ & _ & Hff2).
  assert (Hrun : process_batch ci bottom env batch batch_id w0 =
            write_detections env batch_id
              (partitions_of (partition_sizes env)
                 (map (stamp env)
                    (pat1_detections bottom
                       (foldl (record_read (db w1)) ∅ (distinct_merchants_in_batch batch))
                       batch ci
                     ++ pat2_detections batch ++ pat3_detections batch))) w2).
  { unfold process_batch. destruct batch as [|t rest]; [done |].
    unfold mbind at 1, M_bind at 1. rewrite Hrun1.
    unfold mbind at 1, M_bind at 1. by rewrite Hrun2. }
  rewrite Hrun.
  match goal with |- context [write_detections env batch_id ?df w2] =>
    destruct (write_detections_run env batch_id df w2) as (w3 & -> & Hdb3 & _ & Hf3)
  end.
  exists w3. split; [done |]. split; [by rewrite Hdb3, Hdb2 |].
  unfold fault_free in *. by rewrite Hf3.
Qed.

(** X7. Processing the same batch a second time (a replay after a crash
    before the checkpoint) adds every merchant's row count to its counter a
    second time. *)
Theorem replay_counts_the_batch_twice
    (ci : list ImportanceEntry) (bottom : Q) (env env' : BatchEnv)
    (batch : list TransactionRecord) (batch_id : Z) (w0 : World) (k : string) :
  batch ≠ [] → fault_free w0 → Some k ∈ map merchant batch →
  let w1 := snd (process_batch ci bottom env batch batch_id w0) in
  let w2 := snd (process_batch ci bottom env' batch batch_id w1) in
  db w1 !! k = Some (default 0 (db w0 !! k) + merchant_count batch (Some k)) ∧
  db w2 !! k = Some (default 0 (db w0 !! k) + 2 * merchant_count batch (Some k)).
Proof.
  intros Hne Hff Hk. cbv zeta.
  destruct (process_batch_fault_free ci bottom env batch batch_id w0 Hne Hff)
    as (w1 & -> & Hdb1 & Hff1).
  cbn [snd].
  destruct (process_batch_fault_free ci bottom env' batch batch_id w1 Hne Hff1)
    as (w2 & -> & Hdb2 & _).
  cbn [snd]. rewrite Hdb2, Hdb1, !lookup_after_increments, !decide_True by done.
  split; destruct (db w0 !! k); simpl; f_equal; lia.
Qed.

(** The sample batch, processed twice against an empty table. *)
Lemma replay_of_the_sample_batch :
  sample_batch ≠ [] ∧ fault_free empty_world ∧ Some "M1"%string ∈ map merchant sample_batch ∧
  let w1 := snd (process_batch [] 0 sample_env sample_batch 7 empty_world) in
  let w2 := snd (process_batch [] 0 replay_env sample_batch 7 w1) in
  db w1 !! "M1"%string =
    Some (default 0 (db empty_world !! "M1"%string) + merchant_count sample_batch (Some "M1"%string)) ∧
  db w2 !! "M1"%string =
    Some (default 0 (db empty_world !! "M1"%string)
          + 2 * merchant_count sample_batch (Some "M1"%string)).
Proof.
  assert (Hin : Some "M1"%string ∈ map merchant sample_batch) by (simpl; left).
  split; [exact sample_batch_nonempty |]. split; [exact fault_free_empty_world |].
  split; [exact Hin |].
  exact (replay_counts_the_batch_twice [] 0 sample_env replay_env sample_batch 7 empty_world
           "M1" sample_batch_nonempty fault_free_empty_world Hin).
Defined.

(** * Order of the groups *)

Lemma keys_determine_values {A B} (l : list (A * B)) (x : A) (y1 y2 : B) :
  NoDup (map fst l) → (x, y1) ∈ l → (x, y2) ∈ l → y1 = y2.
Proof.
  induction l as [|[a b] l IH]; intros Hnd H1 H2; [by apply elem_of_nil in H1 |].
  simpl in Hnd. apply NoDup_cons in Hnd as [Ha Hnd].
  apply elem_of_cons in H1 as [H1 | H1]; apply elem_of_cons in H2 as [H2 | H2].
  - congruence.
  - exfalso. apply Ha. apply list_elem_of_fmap. exists (x, y2). split; [| done].
    simpl. congruence.
  - exfalso. apply Ha. apply list_elem_of_fmap. exists (x, y1). split; [| done].
    simpl. congruence.
  - by apply IH.
Qed.

Lemma lookup_after_rows (rows : list (option string * Z)) (db : gmap string Z) (k : string) :
  NoDup (map fst rows) →
  (∀ delta, (Some k, delta) ∈ rows →
     foldl apply_increment db rows !! k = Some (default 0 (db !! k) + delta)) ∧
  ((∀ delta, (Some k, delta) ∉ rows) → foldl apply_increment db rows !! k = db !! k).
Proof.
  intros Hnd. rewrite lookup_foldl_apply_increment by done.
  destruct (list_find _ rows) as [[i [m d]]|] eqn:Hfind.
  - apply list_find_Some in Hfind as (Hi & Hm & _). simpl in Hm. subst m.
    apply list_elem_of_lookup_2 in Hi. split.
    + intros delta Hdelta.
      assert (delta = d) as ->.
      { by apply (keys_determine_values rows (Some k)). }
      by destruct (db !! k).
    + intros Hnone. by destruct (Hnone d).
  - apply list_find_None in Hfind. rewrite Forall_forall in Hfind. split; [| done].
    intros delta Hdelta. by destruct (Hfind _ Hdelta).
Qed.

(** X8. The table after the increments of a batch does not depend on the
    order in which the merchant groups are taken. *)
Theorem increments_commute (rows rows' : list (option string * Z)) (db : gmap string Z) :
  NoDup (map fst rows) → rows ≡ₚ rows' →
  foldl apply_increment db rows = foldl apply_increment db rows'.
Proof.
  intros Hnd Hperm.
  assert (Hnd' : NoDup (map fst rows')) by (by rewrite <- Hperm).
  apply map_eq. intros k.
  destruct (lookup_after_rows rows db k Hnd) as [Hin Hout].
  destruct (lookup_after_rows rows' db k Hnd') as [Hin' Hout'].
  destruct (list_find (λ row, fst row = Some k) rows) as [[i [m d]]|] eqn:Hfind.
  - apply list_find_Some in Hfind as (Hi & Hm & _). simpl in Hm. subst m.
    apply list_elem_of_lookup_2 in Hi.
    rewrite (Hin d Hi). rewrite (Hin' d); [done |]. by rewrite <- Hperm.
  - apply list_find_None in Hfind. rewrite Forall_forall in Hfind.
    rewrite Hout, Hout'; [done | |].
    + intros delta Hdelta. rewrite <- Hperm in Hdelta. by destruct (Hfind _ Hdelta).
    + intros delta Hdelta. by destruct (Hfind _ Hdelta).
Qed.

(** The groups of the sample batch, in both orders. *)
Lemma increments_of_the_sample_batch_commute :
  NoDup (map fst (merchant_counts_in_batch sample_batch)) ∧
  merchant_counts_in_batch sample_batch ≡ₚ reverse (merchant_counts_in_batch sample_batch) ∧
  foldl apply_increment ∅ (merchant_counts_in_batch sample_batch) =
  foldl apply_increment ∅ (reverse (merchant_counts_in_batch sample_batch)).
Proof.
  assert (Hnd : NoDup (map fst (merchant_counts_in_batch sample_batch))).
  { rewrite merchant_counts_in_batch_keys. apply NoDup_remove_dups. }
  assert (Hperm : merchant_counts_in_batch sample_batch
                  ≡ₚ reverse (merchant_counts_in_batch sample_batch)).
  { symmetry. apply reverse_Permutation. }
  split; [exact Hnd |]. split; [exact Hperm |].
  exact (increments_commute _ _ ∅ Hnd Hperm).
Defined.

(** * Increment, then read *)

(** X9. After a successful increment of a merchant's counter by [delta], a
    successful read of that merchant returns the previous value (0 when the
    merchant had no row) plus [delta], and the read of any other merchant
    returns what it returned before. *)
Theorem read_after_increment (k k' : string) (delta : Z) (db : gmap string Z) :
  let db' := snd (upsert_merchant_counts NoFault (Some k) delta db) in
  get_merchant_total_transactions NoFault (Some k) db' =
    Returned (default 0 (db !! k) + delta) ∧
  (get_merchant_total_transactions NoFault (Some k) db = Returned (default 0 (db !! k))) ∧
  (k' ≠ k →
   get_merchant_total_transactions NoFault (Some k') db' =
   get_merchant_total_transactions NoFault (Some k') db).
Proof.
  cbv zeta. rewrite upsert_without_fault, !get_without_fault. simpl.
  split; [| split; [done |]].
  - rewrite lookup_apply_increment, decide_True by done. by destruct (db !! k).
  - intros Hne. by rewrite lookup_apply_increment, decide_False by congruence.
Qed.

(** * What a run writes *)

Lemma concat_partitions_of {A} (sizes : list nat) (rows : list A) :
  concat (partitions_of sizes rows) = rows.
Proof.
  revert rows. induction sizes as [|k sizes IH]; intros rows; simpl.
  - apply app_nil_r.
  - by rewrite IH, take_drop.
Qed.

Lemma new_rows_unchanged (w : World) : new_rows w w = [].
Proof. unfold new_rows. by rewrite drop_all. Qed.

Lemma write_detections_rows env batch_id (df : list (list Detection)) (w : World) :
  new_rows w (snd (write_detections env batch_id df w)) ≡ₚ concat df ∧
  (concat df = [] → written (snd (write_detections env batch_id df w)) = written w).
Proof.
  unfold write_detections. case_bool_decide as Hnil.
  - simpl. rewrite new_rows_unchanged, Hnil. done.
  - split; [| done]. case_bool_decide as Hpos.
    + unfold new_rows. simpl. rewrite drop_app_length. simpl. rewrite app_nil_r.
      apply concat_repartition. unfold num_partitions_for. lia.
    + destruct (concat df); [done | simpl in Hpos; lia].
Qed.

Lemma process_batch_fault_free_writes ci (bottom : Q) env batch batch_id w0 :
  batch ≠ [] → fault_free w0 →
  ∃ w2, process_batch ci bottom env batch batch_id w0 =
          write_detections env batch_id
            (partitions_of (partition_sizes env)
               (map (stamp env)
                  (all_detections bottom (post_increment_snapshot batch (db w0)) batch ci))) w2 ∧
        written w2 = written w0.
Proof.
  intros Hne Hff.
  destruct (update_merchant_counts_run (merchant_counts_in_batch batch) w0 Hff)
    as (w1 & Hrun1 & Hdb1 & _ & Hout1 & Hff1).
  destruct (merchant_total_txns_map_run (distinct_merchants_in_batch batch) ∅ w1 Hff1)
    as (w2 & Hrun2 & _ & _ & Hout2 & _).
  exists w2. split; [| by rewrite Hout2].
  unfold process_batch. destruct batch as [|t rest]; [done |].
  unfold mbind at 1, M_bind at 1. rewrite Hrun1.
  unfold mbind at 1, M_bind at 1. rewrite Hrun2.
  unfold post_increment_snapshot, all_detections. by rewrite Hdb1.
Qed.

(** ** The merged detections have no duplicates *)

Lemma pat1_rows (bottom : Q) (snapshot : gmap (option string) Z) batch ci d :
  d ∈ pat1_detections bottom snapshot batch ci →
  patternId d = "PatId1"%string ∧ unstamped d.
Proof.
  intros Hd. apply elem_of_pat1_detections in Hd as (t & e & _ & _ & _ & _ & _ & ->). done.
Qed.

Lemma pat2_rows batch d :
  d ∈ pat2_detections batch → patternId d = "PatId2"%string ∧ unstamped d.
Proof.
  unfold pat2_detections. rewrite elem_of_remove_dups, list_elem_of_fmap.
  by intros (s & -> & _).
Qed.

Lemma pat3_rows batch d :
  d ∈ pat3_detections batch → patternId d = "PatId3"%string ∧ unstamped d.
Proof.
  unfold pat3_detections. rewrite elem_of_remove_dups, list_elem_of_fmap.
  by intros (r & -> & _).
Qed.

Lemma all_detections_unstamped (bottom : Q) (snapshot : gmap (option string) Z) batch ci d :
  d ∈ all_detections bottom snapshot batch ci → unstamped d.
Proof.
  unfold all_detections. rewrite !elem_of_app.
  intros [H | [H | H]];
    [apply pat1_rows in H | apply pat2_rows in H | apply pat3_rows in H]; tauto.
Qed.

Lemma stamp_inj env d1 d2 :
  unstamped d1 → unstamped d2 → stamp env d1 = stamp env d2 → d1 = d2.
Proof.
  destruct d1, d2. unfold unstamped, stamp. simpl.
  intros [-> ->] [-> ->] [= -> -> -> ->]. done.
Qed.




Lemma post_increment_snapshot_lookup batch (db0 : gmap string Z) (k : string) :
  Some k ∈ map merchant batch →
  get_total_txns_udf (post_increment_snapshot batch db0) (Some k) =
  default 0 (db0 !! k) + merchant_count batch (Some k).
Proof.
  intros Hk. unfold get_total_txns_udf, post_increment_snapshot.
  rewrite lookup_foldl_record_read, decide_True by (by apply elem_of_remove_dups).
  simpl. rewrite lookup_after_increments, decide_True by done.
  by destruct (db0 !! k).
Qed.

(** X11. In a run in which the store answers every call, the current
    batch's own rows count toward the PatId1 threshold: the stamped UPGRADE
    row of a record is written exactly when the reference table has a weight
    of at most [bottom] for the record's pair and the merchant's counter
    before the batch plus the merchant's rows in the batch exceeds 50,000. *)
Theorem upgrade_counts_the_current_batch
    (ci : list ImportanceEntry) (bottom : Q) (env : BatchEnv)
    (batch : list TransactionRecord) (batch_id : Z) (w0 : World)
    (t : TransactionRecord) (k : string) :
  fault_free w0 → t ∈ batch → merchant t = Some k →
  stamp env (upgrade (customer t) (Some k))
    ∈ new_rows w0 (snd (process_batch ci bottom env batch batch_id w0)) ↔
  (∃ e, e ∈ ci ∧ join_on t e ∧ (weight e <= bottom)%Q) ∧
  default 0 (db w0 !! k) + merchant_count batch (Some k) > 50000.
Proof.
  intros Hff Ht Hm.
  assert (Hne : batch ≠ []) by (intros ->; by apply elem_of_nil in Ht).
  assert (Hk : Some k ∈ map merchant batch).
  { apply list_elem_of_fmap. by exists t. }
  destruct (process_batch_fault_free_writes ci bottom env batch batch_id w0 Hne Hff)
    as (w2 & -> & Hout2).
  match goal with |- context [write_detections env batch_id ?df w2] =>
    destruct (write_detections_rows env batch_id df w2) as [Hrows _]
  end.
  rewrite concat_partitions_of in Hrows.
  replace (new_rows w0) with (new_rows w2) by (unfold new_rows; by rewrite Hout2).
  rewrite Hrows. clear Hrows.
  set (snapshot := post_increment_snapshot batch (db w0)).
  assert (Hiff : stamp env (upgrade (customer t) (Some k))
                   ∈ map (stamp env) (all_detections bottom snapshot batch ci) ↔
                 upgrade (customer t) (Some k) ∈ pat1_detections bottom snapshot batch ci).
  { rewrite list_elem_of_fmap. split.
    - intros (d & Heq & Hd).
      apply stamp_inj in Heq; [| done | by eapply all_detections_unstamped].
      subst d. unfold all_detections in Hd.
      apply elem_of_app in Hd as [Hd | Hd]; [done |].
      apply elem_of_app in Hd as [Hd | Hd];
        [apply pat2_rows in Hd as [Hd _] | apply pat3_rows in Hd as [Hd _]];
        discriminate Hd.
    - intros Hd. exists (upgrade (customer t) (Some k)). split; [done |].
      unfold all_detections. apply elem_of_app. by left. }
  rewrite Hiff, elem_of_pat1_detections. split.
  - intros (t' & e & Ht' & He & Hj & Hw & Htot & Heq).
    injection Heq as Hc Hm'. split.
    + exists e. split; [done |]. split; [| done].
      apply (join_on_same_pair t'); [done | congruence | done].
    + rewrite <- Hm' in Htot. unfold snapshot in Htot.
      by rewrite post_increment_snapshot_lookup in Htot.
  - intros [(e & He & Hj & Hw) Htot]. exists t, e.
    split; [done |]. split; [done |]. split; [done |]. split; [done |].
    split; [| by rewrite Hm].
    rewrite Hm. unfold snapshot. by rewrite post_increment_snapshot_lookup.
Qed.

Lemma fault_free_threshold_world : fault_free threshold_world.
Proof. apply Forall_nil_2. Defined.

(** A merchant at 49,999 reaches 50,001 with the two rows of the batch. *)
Lemma upgrade_when_the_batch_crosses_the_threshold :
  let t := txn "C1" "M" "M1" (10 # 1) in
  fault_free threshold_world ∧ t ∈ threshold_batch ∧ merchant t = Some "M1"%string ∧
  (stamp sample_env (upgrade (customer t) (Some "M1"%string))
     ∈ new_rows threshold_world
         (snd (process_batch [sample_entry (1 # 2)] (1 # 2) sample_env threshold_batch 7
                 threshold_world)) ↔
   (∃ e, e ∈ [sample_entry (1 # 2)] ∧ join_on t e ∧ (weight e <= 1 # 2)%Q) ∧
   default 0 (db threshold_world !! "M1"%string)
     + merchant_count threshold_batch (Some "M1"%string) > 50000).
Proof.
  intros t.
  assert (Hin : t ∈ threshold_batch) by left.
  split; [exact fault_free_threshold_world |]. split; [exact Hin |]. split; [reflexivity |].
  exact (upgrade_counts_the_current_batch [sample_entry (1 # 2)] (1 # 2) sample_env
           threshold_batch 7 threshold_world t "M1" fault_free_threshold_world Hin eq_refl).
Defined.

Example upgrade_is_written_when_the_batch_crosses_the_threshold :
  new_rows threshold_world
    (snd (process_batch [sample_entry (1 # 2)] (1 # 2) sample_env threshold_batch 7
            threshold_world))
  = [stamp sample_env (upgrade (Some "C1"%string) (Some "M1"%string));
     stamp sample_env (dei_needed (Some "M1"%string))].
Proof. vm_compute. reflexivity. Qed.

(** * Detectors: edges *)

(** X12. A batch of fewer than 80 rows yields no PatId2 detection, whatever
    its amounts: the count is taken within the batch alone. *)
Theorem no_child_in_a_batch_under_80_rows (batch : list TransactionRecord) :
  (length batch < 80)%nat → pat2_detections batch = [].
Proof.
  intros Hshort. apply elem_of_nil_inv. intros d Hd.
  unfold pat2_detections in Hd.
  apply elem_of_remove_dups, list_elem_of_fmap in Hd as (s & -> & Hs).
  apply list_elem_of_filter in Hs as [[_ Hcount] Hs].
  apply elem_of_customer_merchant_stats in Hs as (t & _ & ->). simpl in Hcount.
  unfold PAT2_MIN_TXN_COUNT, count_rows, customer_merchant_group in Hcount.
  pose proof (length_filter (λ t', (customer t', merchant t') = (customer t, merchant t)) batch).
  lia.
Qed.

Lemma no_child_in_79_rows :
  (length (replicate 79 (txn "C2" "M" "M2" (1 # 1))) < 80)%nat ∧
  pat2_detections (replicate 79 (txn "C2" "M" "M2" (1 # 1))) = [].
Proof.
  assert (Hlen : (length (replicate 79 (txn "C2" "M" "M2" (1 # 1))) < 80)%nat).
  { rewrite length_replicate. lia. }
  split; [exact Hlen |].
  exact (no_child_in_a_batch_under_80_rows _ Hlen).
Defined.

Lemma avg_of_nulls (values : list (option Q)) :
  Forall (λ v, v = None) values → avg values = None.
Proof.
  intros Hall. unfold avg.
  assert (omap id values = []) as ->; [| done].
  induction Hall as [|v values -> _ IH]; [done |]. simpl. exact IH.
Qed.

(** X13. A (customer, merchant) pair all of whose amounts in the batch are
    null has a null mean and yields no PatId2 detection, however many rows it
    has. *)
Theorem no_child_without_amounts (batch : list TransactionRecord) (c m : option string) :
  (∀ t, t ∈ batch → customer t = c → merchant t = m → amount t = None) →
  child c m ∉ pat2_detections batch.
Proof.
  intros Hnull Hd. unfold pat2_detections in Hd.
  apply elem_of_remove_dups, list_elem_of_fmap in Hd as (s & Heq & Hs).
  apply list_elem_of_filter in Hs as [[Hmean _] Hs].
  apply elem_of_customer_merchant_stats in Hs as (t & _ & ->).
  injection Heq as Hc Hm. subst c m. simpl in Hmean.
  rewrite avg_of_nulls in Hmean; [done |].
  apply Forall_fmap, Forall_forall. intros t' Ht'.
  apply list_elem_of_filter in Ht' as [[= Hc Hm] Ht']. simpl. by apply Hnull.
Qed.

Lemma no_child_for_80_rows_without_amount :
  let row := {| customer := Some "C2"%string; gender := Some "M"%string;
                merchant := Some "M2"%string; amount := None |} in
  (∀ t, t ∈ replicate 80 row → customer t = Some "C2"%string →
        merchant t = Some "M2"%string → amount t = None) ∧
  child (Some "C2"%string) (Some "M2"%string) ∉ pat2_detections (replicate 80 row).
Proof.
  intros row.
  assert (Hnull : ∀ t, t ∈ replicate 80 row → customer t = Some "C2"%string →
                       merchant t = Some "M2"%string → amount t = None).
  { intros t [-> _]%elem_of_replicate _ _. reflexivity. }
  split; [exact Hnull |].
  exact (no_child_without_amounts (replicate 80 row) _ _ Hnull).
Defined.

(** X14. Every detection names a merchant of the batch, and a PatId1
    detection names a customer and a merchant that are not null: a row with a
    null customer or merchant never joins the reference table. *)
Theorem detections_name_merchants_of_the_batch
    (bottom : Q) (snapshot : gmap (option string) Z)
    (batch : list TransactionRecord) (ci : list ImportanceEntry) :
  Forall (λ d, MerchantId d ∈ map merchant batch)
         (all_detections bottom snapshot batch ci) ∧
  Forall (λ d, is_Some (customerName d) ∧ is_Some (MerchantId d))
         (pat1_detections bottom snapshot batch ci).
Proof.
  split.
  - apply Forall_forall. intros d Hd. unfold all_detections in Hd.
    apply elem_of_app in Hd as [Hd | Hd]; [| apply elem_of_app in Hd as [Hd | Hd]].
    + apply elem_of_pat1_detections in Hd as (t & _ & Ht & _ & _ & _ & _ & ->).
      simpl. apply list_elem_of_fmap. by exists t.
    + unfold pat2_detections in Hd.
      apply elem_of_remove_dups, list_elem_of_fmap in Hd as (s & -> & Hs).
      apply list_elem_of_filter in Hs as [_ Hs].
      apply elem_of_customer_merchant_stats in Hs as (t & Ht & ->).
      simpl. apply list_elem_of_fmap. by exists t.
    + unfold pat3_detections in Hd.
      apply elem_of_remove_dups, list_elem_of_fmap in Hd as (r & -> & Hr).
      apply list_elem_of_filter in Hr as [_ Hr].
      apply elem_of_pivoted_gender_counts in Hr as ((t & Ht & _ & Hm) & _).
      simpl. apply list_elem_of_fmap. by exists t.
  - apply Forall_forall. intros d Hd.
    apply elem_of_pat1_detections in Hd as (t & e & _ & _ & (Hc & _ & Hm & _) & _ & _ & ->).
    done.
Qed.

(** * Output writer: small detection sets *)

Lemma deal_into_one_part {A} (position : nat) (rows part : list A) :
  deal 1 position rows [part] = [part ++ rows].
Proof.
  revert position part. induction rows as [|r rows IH]; intros position part.
  - simpl. by rewrite app_nil_r.
  - cbn [deal]. rewrite Nat.mod_1_r.
    change (alter (λ part0, part0 ++ [r]) 0%nat [part]) with [part ++ [r]].
    by rewrite IH, <- app_assoc.
Qed.

Lemma repartition_from_into_one_part {A} (start : nat → nat) (i : nat)
    (df : list (list A)) (part : list A) :
  repartition_from 1 start i df [part] = [part ++ concat df].
Proof.
  revert i part. induction df as [|rows df IH]; intros i part; simpl.
  - by rewrite app_nil_r.
  - rewrite deal_into_one_part, IH. by rewrite <- app_assoc.
Qed.

Lemma repartition_into_one_part {A} (start : nat → nat) (df : list (list A)) :
  repartition 1 start df = [concat df].
Proof. unfold repartition. simpl. by rewrite repartition_from_into_one_part. Qed.

(** X15. A non-empty detection set of at most [DETECTION_BATCH_SIZE] rows is
    written as a single part that holds all its rows, in their order. *)
Theorem small_sets_are_written_as_one_part
    (env : BatchEnv) (batch_id : Z) (final_detections : list (list Detection)) (w : World) :
  concat final_detections ≠ [] →
  (length (concat final_detections) ≤ DETECTION_BATCH_SIZE)%nat →
  write_detections env batch_id final_detections w =
    (Returned tt,
     {| db := db w; calls := calls w; faults := faults w;
        written := written w ++
          [{| folder_batch_id := batch_id; folder_uuid := file_uuid env;
              part_files := [concat final_detections] |}] |}).
Proof.
  intros Hne Hsmall.
  assert (Hpos : (0 < length (concat final_detections))%nat).
  { destruct (concat final_detections); [done | simpl; lia]. }
  unfold write_detections.
  rewrite bool_decide_false by done. rewrite bool_decide_true by done.
  assert (num_partitions_for (length (concat final_detections)) = 1%nat) as ->.
  { unfold num_partitions_for, DETECTION_BATCH_SIZE in *.
    assert ((length (concat final_detections) + 50 - 1) / 50 = 1)%nat as ->; [| done].
    symmetry. apply (Nat.div_unique _ _ _ (length (concat final_detections) - 1)); lia. }
  by rewrite repartition_into_one_part.
Qed.

Lemma two_detections_are_written_as_one_part :
  let df := [[upgrade (Some "C1"%string) (Some "M1"%string)];
             [dei_needed (Some "M1"%string)]] in
  concat df ≠ [] ∧ (length (concat df) ≤ DETECTION_BATCH_SIZE)%nat ∧
  write_detections sample_env 7 df empty_world =
    (Returned tt,
     {| db := db empty_world; calls := calls empty_world; faults := faults empty_world;
        written := written empty_world ++
          [{| folder_batch_id := 7; folder_uuid := file_uuid sample_env;
              part_files := [concat df] |}] |}).
Proof.
  intros df.
  assert (Hne : concat df ≠ []) by discriminate.
  assert (Hsmall : (length (concat df) ≤ DETECTION_BATCH_SIZE)%nat).
  { unfold DETECTION_BATCH_SIZE. simpl. lia. }
  split; [exact Hne |]. split; [exact Hsmall |].
  exact (small_sets_are_written_as_one_part sample_env 7 df empty_world Hne Hsmall).
Defined.

(** * Mechanism X: properties *)

Lemma length_iloc {A} (df : list A) (start stop : nat) :
  length (iloc df start stop) = Nat.min (stop - start) (length df - start).
Proof. unfold iloc. by rewrite length_take, length_drop. Qed.

Lemma chunk_total_bounds (n : nat) :
  (n ≤ chunk_total n * CHUNK_SIZE)%nat ∧
  (0 < n → (chunk_total n - 1) * CHUNK_SIZE < n)%nat ∧
  (n = 0%nat → chunk_total n = 0%nat).
Proof.
  unfold chunk_total, CHUNK_SIZE.
  pose proof (Nat.div_mod_eq (n + 1000 - 1) 1000) as Hdm.
  pose proof (Nat.mod_upper_bound (n + 1000 - 1) 1000 ltac:(lia)) as Hmod.
  repeat split; lia.
Qed.

(** What the loop has done after [j] chunks. *)
Lemma ingestion_loop_from {A} (fuel : nat) (clock : nat → string) (df : list A)
    (j : nat) (files : gmap nat (list (A * string))) (slept : nat) :
  (j ≤ chunk_total (length df))%nat → (chunk_total (length df) - j < fuel)%nat →
  (∀ i, files !! i = if decide (1 ≤ i ≤ j)%nat then Some (chunk_number clock df i) else None) →
  slept = (if decide (j * CHUNK_SIZE < length df)%nat then j else j - 1)%nat →
  ∃ files',
    ingestion_loop fuel clock df
      {| last_processed_row := j * CHUNK_SIZE; chunk_counter := j;
         chunk_files := files; sleeps := slept |} =
    Some {| last_processed_row := chunk_total (length df) * CHUNK_SIZE;
            chunk_counter := chunk_total (length df);
            chunk_files := files'; sleeps := chunk_total (length df) - 1 |} ∧
    ∀ i, files' !! i =
         if decide (1 ≤ i ≤ chunk_total (length df))%nat
         then Some (chunk_number clock df i) else None.
Proof.
  revert j files slept. induction fuel as [|fuel IH]; intros j files slept Hj Hfuel Hfiles Hslept;
    [lia |].
  destruct (chunk_total_bounds (length df)) as (Hup & Hlow & _).
  cbn [ingestion_loop last_processed_row chunk_counter chunk_files sleeps].
  case_bool_decide as Hmore.
  - unfold process_and_write_chunk.
    destruct (iloc df (j * CHUNK_SIZE) (Nat.min (j * CHUNK_SIZE + CHUNK_SIZE) (length df)))
      as [|r chunk] eqn:Hchunk.
    { exfalso. apply (f_equal length) in Hchunk. rewrite length_iloc in Hchunk.
      unfold CHUNK_SIZE in *. simpl in Hchunk. lia. }
    rewrite <- Hchunk. clear Hchunk r chunk.
    assert (Hlt : (j < chunk_total (length df))%nat).
    { unfold CHUNK_SIZE in *. nia. }
    replace (j * CHUNK_SIZE + CHUNK_SIZE)%nat with (S j * CHUNK_SIZE)%nat by lia.
    apply IH; [lia | lia | |].
    + intros i. destruct (decide (i = S j)) as [->|Hne].
      * rewrite lookup_insert_eq, decide_True by lia.
        unfold chunk_number. do 3 f_equal. lia.
      * rewrite lookup_insert_ne by done. rewrite Hfiles.
        destruct (decide (1 ≤ i ≤ j)%nat), (decide (1 ≤ i ≤ S j)%nat); done || lia.
    + subst slept. rewrite (decide_True (P := (j * CHUNK_SIZE < length df)%nat)) by done.
      case_bool_decide; [by rewrite decide_True | rewrite decide_False by done; lia].
  - assert (j = chunk_total (length df)) as Hend.
    { destruct (decide (length df = 0%nat)) as [H0|H0].
      - destruct (chunk_total_bounds (length df)) as (_ & _ & Hz). rewrite (Hz H0) in *. lia.
      - unfold CHUNK_SIZE in *. specialize (Hlow ltac:(lia)). nia. }
    subst slept. rewrite decide_False by done. rewrite <- Hend.
    exists files. split; [done | exact Hfiles].
Qed.

Lemma concat_chunks_upto {A} (df : list A) (j : nat) :
  concat (map (λ i, iloc df ((i - 1) * CHUNK_SIZE) (Nat.min (i * CHUNK_SIZE) (length df)))
              (seq 1 j))
  = take (j * CHUNK_SIZE) df.
Proof.
  induction j as [|j IH]; [done |].
  rewrite seq_S, map_app, concat_app, IH. cbn [map concat Nat.add]. rewrite app_nil_r.
  replace ((S j - 1) * CHUNK_SIZE)%nat with (j * CHUNK_SIZE)%nat by lia.
  unfold iloc. rewrite take_take_drop. unfold CHUNK_SIZE.
  destruct (decide (S j * 1000 ≤ length df)%nat) as [Hle|Hgt].
  - f_equal. lia.
  - rewrite !take_ge; [done | lia | lia].
Qed.

Lemma omap_lookup_fmap {A B} (f : A → option B) (g : A → B) (l : list A) :
  (∀ x, x ∈ l → f x = Some (g x)) → omap f l = map g l.
Proof.
  induction l as [|x l IH]; intros Hf; [done |].
  simpl. rewrite (Hf x) by left. simpl. f_equal. apply IH. intros y Hy. apply Hf. by right.
Qed.

Lemma fst_with_ingestion_timestamp {A} (stamp : string) (chunk_df : list A) :
  map fst (with_ingestion_timestamp stamp chunk_df) = chunk_df.
Proof.
  unfold with_ingestion_timestamp. induction chunk_df as [|r l IH]; [done |].
  simpl. by rewrite IH.
Qed.

(** X16. Given fuel for one iteration more than the table has chunks, the
    main loop ends after writing [ceil (n / 1000)] chunk files, numbered from
    1: file [i] holds the rows from [(i - 1) * 1000] up to [i * 1000] (or the
    end of the table), each with the clock reading of that chunk; the files
    read in order give back the table, and every file has between 1 and
    1000 rows. *)
Theorem ingestion_writes_the_table_in_chunks {A} (fuel : nat) (clock : nat → string)
    (pdf_transactions : list A) :
  (chunk_total (length pdf_transactions) < fuel)%nat →
  ∃ final,
    ingestion_loop fuel clock pdf_transactions ingestion_start = Some final ∧
    chunk_counter final = chunk_total (length pdf_transactions) ∧
    (∀ i, chunk_files final !! i =
          if decide (1 ≤ i ≤ chunk_total (length pdf_transactions))%nat
          then Some (chunk_number clock pdf_transactions i) else None) ∧
    concat (chunks_in_order final) = pdf_transactions ∧
    Forall (λ chunk, (1 ≤ length chunk ≤ CHUNK_SIZE)%nat) (chunks_in_order final).
Proof.
  intros Hfuel.
  destruct (ingestion_loop_from fuel clock pdf_transactions 0 ∅ 0) as (files & Hrun & Hfiles).
  - lia.
  - lia.
  - intros i. rewrite lookup_empty. rewrite decide_False; [done | lia].
  - by destruct (decide _).
  - eexists. split; [exact Hrun |]. split; [done |]. split; [exact Hfiles |].
    assert (Hchunks : chunks_in_order
              {| last_processed_row := chunk_total (length pdf_transactions) * CHUNK_SIZE;
                 chunk_counter := chunk_total (length pdf_transactions);
                 chunk_files := files;
                 sleeps := chunk_total (length pdf_transactions) - 1 |}
            = map (λ i, iloc pdf_transactions ((i - 1) * CHUNK_SIZE)
                          (Nat.min (i * CHUNK_SIZE) (length pdf_transactions)))
                  (seq 1 (chunk_total (length pdf_transactions)))).
    { unfold chunks_in_order. cbn [chunk_counter chunk_files].
      rewrite (omap_lookup_fmap _ (chunk_number clock pdf_transactions)).
      - rewrite <- list_fmap_compose. apply list_fmap_ext. intros _ i _. simpl.
        unfold chunk_number. apply fst_with_ingestion_timestamp.
      - intros i Hi. apply elem_of_seq in Hi. rewrite Hfiles, decide_True; [done | lia]. }
    rewrite Hchunks. clear Hchunks Hrun.
    destruct (chunk_total_bounds (length pdf_transactions)) as (Hup & Hlow & _).
    split.
    + rewrite concat_chunks_upto. by apply take_ge.
    + apply Forall_fmap, Forall_forall. intros i Hi. apply elem_of_seq in Hi. simpl.
      rewrite length_iloc.
      assert (0 < length pdf_transactions)%nat as Hpos.
      { destruct (decide (length pdf_transactions = 0%nat)) as [H0|]; [| lia].
        destruct (chunk_total_bounds (length pdf_transactions)) as (_ & _ & Hz).
        rewrite (Hz H0) in Hi. lia. }
      specialize (Hlow Hpos). unfold CHUNK_SIZE in *. nia.
Qed.

(** A table of 2,500 rows, with fuel for ten iterations. *)
Lemma ingestion_of_2500_rows :
  (chunk_total (length sample_table) < 10)%nat ∧
  ∃ final,
    ingestion_loop 10 sample_clock sample_table ingestion_start = Some final ∧
    chunk_counter final = chunk_total (length sample_table) ∧
    (∀ i, chunk_files final !! i =
          if decide (1 ≤ i ≤ chunk_total (length sample_table))%nat
          then Some (chunk_number sample_clock sample_table i) else None) ∧
    concat (chunks_in_order final) = sample_table ∧
    Forall (λ chunk, (1 ≤ length chunk ≤ CHUNK_SIZE)%nat) (chunks_in_order final).
Proof.
  assert (Hfuel : (chunk_total (length sample_table) < 10)%nat).
  { vm_compute. lia. }
  split; [exact Hfuel |].
  exact (ingestion_writes_the_table_in_chunks 10 sample_clock sample_table Hfuel).
Defined.

Example chunk_sizes_of_2500_rows :
  (λ st, (map length (chunks_in_order st), chunk_counter st, last_processed_row st, sleeps st))
    <$> ingestion_loop 10 sample_clock sample_table ingestion_start
  = Some ([1000; 1000; 500]%nat, 3%nat, 3000%nat, 2%nat).
Proof. vm_compute. reflexivity. Qed.

(** X17. When the loop ends, the row count it reports is the number of
    chunks times 1000: at least the table's size, less than 1000 above it,
    and equal to it only when the size is a multiple of 1000. It has slept
    once between consecutive chunks: for a table with rows, one time fewer
    than it wrote chunks; for an empty table it wrote no chunk and did not
    sleep. *)
Theorem ingestion_report_and_sleeps {A} (fuel : nat) (clock : nat → string)
    (pdf_transactions : list A) :
  (chunk_total (length pdf_transactions) < fuel)%nat →
  ∃ final,
    ingestion_loop fuel clock pdf_transactions ingestion_start = Some final ∧
    last_processed_row final = (chunk_counter final * CHUNK_SIZE)%nat ∧
    (length pdf_transactions ≤ last_processed_row final
       < length pdf_transactions + CHUNK_SIZE)%nat ∧
    (last_processed_row final = length pdf_transactions ↔
       (length pdf_transactions mod CHUNK_SIZE = 0)%nat) ∧
    (pdf_transactions ≠ [] → chunk_counter final = S (sleeps final)) ∧
    (pdf_transactions = [] → chunk_counter final = 0%nat ∧ sleeps final = 0%nat).
Proof.
  intros Hfuel.
  destruct (ingestion_loop_from fuel clock pdf_transactions 0 ∅ 0) as (files & Hrun & _).
  - lia.
  - lia.
  - intros i. rewrite lookup_empty. rewrite decide_False; [done | lia].
  - by destruct (decide _).
  - eexists. split; [exact Hrun |]. cbn [last_processed_row chunk_counter sleeps].
    split; [done |].
    destruct (chunk_total_bounds (length pdf_transactions)) as (Hup & Hlow & Hz).
    pose proof (Nat.div_mod_eq (length pdf_transactions) CHUNK_SIZE) as Hdm.
    pose proof (Nat.mod_upper_bound (length pdf_transactions) CHUNK_SIZE) as Hmod.
    unfold CHUNK_SIZE in *. specialize (Hmod ltac:(lia)).
    destruct (decide (length pdf_transactions = 0%nat)) as [H0|H0].
    + rewrite (Hz H0), H0. simpl. split; [lia |]. split; [done |].
      split; [| done]. intros Hne. by apply length_zero_iff_nil in H0.
    + specialize (Hlow ltac:(lia)). split; [nia |]. split; [nia |].
      split; [intros _; lia |]. intros ->. done.
Qed.

Lemma ingestion_report_of_2500_rows :
  (chunk_total (length sample_table) < 10)%nat ∧
  ∃ final,
    ingestion_loop 10 sample_clock sample_table ingestion_start = Some final ∧
    last_processed_row final = (chunk_counter final * CHUNK_SIZE)%nat ∧
    (length sample_table ≤ last_processed_row final < length sample_table + CHUNK_SIZE)%nat ∧
    (last_processed_row final = length sample_table ↔
       (length sample_table mod CHUNK_SIZE = 0)%nat) ∧
    (sample_table ≠ [] → chunk_counter final = S (sleeps final)) ∧
    (sample_table = [] → chunk_counter final = 0%nat ∧ sleeps final = 0%nat).
Proof.
  assert (Hfuel : (chunk_total (length sample_table) < 10)%nat).
  { vm_compute. lia. }
  split; [exact Hfuel |].
  exact (ingestion_report_and_sleeps 10 sample_clock sample_table Hfuel).
Defined.

(** The empty table: no chunk, no sleep, zero rows reported. *)
Example ingestion_of_an_empty_table :
  (λ st, (chunk_counter st, last_processed_row st, sleeps st, chunk_files st))
    <$> ingestion_loop 1 sample_clock ([] : list Z) ingestion_start
  = Some (0%nat, 0%nat, 0%nat, ∅).
Proof. vm_compute. reflexivity. Qed.

(** A table of one row: one chunk, no sleep. *)
Example ingestion_of_one_row :
  (λ st, (map length (chunks_in_order st), chunk_counter st, last_processed_row st, sleeps st))
    <$> ingestion_loop 2 sample_clock [7] ingestion_start
  = Some ([1]%nat, 1%nat, 1000%nat, 0%nat).
Proof. vm_compute. reflexivity. Qed.

(** X18. [process_and_write_chunk] writes a chunk and returns [True]
    exactly when [start_row] lies inside the table; the chunk then has at
    most 1000 rows and replaces only the file of its own chunk id. Called at
    or past the end of the table it returns [False] and writes nothing. *)
Theorem chunk_is_written_iff_start_is_inside {A} (clock : nat → string)
    (df_transactions : list A) (start_row chunk_id : nat)
    (files : gmap nat (list (A * string))) :
  let outcome := process_and_write_chunk clock df_transactions start_row chunk_id files in
  (fst outcome = true ↔ (start_row < length df_transactions)%nat) ∧
  (fst outcome = false → snd outcome = files) ∧
  (fst outcome = true →
     ∃ chunk, snd outcome !! chunk_id = Some (with_ingestion_timestamp (clock chunk_id) chunk) ∧
              chunk = take CHUNK_SIZE (drop start_row df_transactions) ∧
              (1 ≤ length chunk ≤ CHUNK_SIZE)%nat) ∧
  (∀ i, i ≠ chunk_id → snd outcome !! i = files !! i).
Proof.
  cbv zeta. unfold process_and_write_chunk.
  pose proof (length_iloc df_transactions start_row
                (Nat.min (start_row + CHUNK_SIZE) (length df_transactions))) as Hlen.
  assert (Hiloc : (start_row < length df_transactions)%nat →
            iloc df_transactions start_row
              (Nat.min (start_row + CHUNK_SIZE) (length df_transactions))
            = take CHUNK_SIZE (drop start_row df_transactions)).
  { intros Hin. unfold iloc.
    destruct (decide (start_row + CHUNK_SIZE ≤ length df_transactions)%nat).
    - f_equal. lia.
    - rewrite !take_ge; [done | |]; rewrite length_drop; lia. }
  destruct (iloc df_transactions start_row _) as [|r chunk] eqn:Hchunk; simpl in *.
  - split; [| split; [done |]; split; [done |]; done].
    split; [done |]. unfold CHUNK_SIZE in *. lia.
  - assert (Hin : (start_row < length df_transactions)%nat) by (unfold CHUNK_SIZE in *; lia).
    split; [done |]. split; [done |]. split.
    + intros _. exists (r :: chunk). rewrite lookup_insert_eq. split; [done |].
      split; [by rewrite <- Hiloc |]. simpl. unfold CHUNK_SIZE in *. lia.
    + intros i Hi. by rewrite lookup_insert_ne.
Qed.

(** * Aborted batches keep their increments *)

(** The loop over the groups, in whichever order [rows] lists them: when
    the connection fails at call [j + 1], the first [j] rows of that order
    have been applied. *)
Lemma update_merchant_counts_aborts_at (j : nat) rows w (later : list Fault) :
  (j < length rows)%nat →
  faults w = replicate j NoFault ++ AtConnect :: later →
  ∃ w', update_merchant_counts rows w = (Raised (UnboundLocalError "cur"), w') ∧
        db w' = foldl apply_increment (db w) (take j rows) ∧
        calls w' = calls w ++ map increment_call (take (S j) rows) ∧
        written w' = written w.
Proof.
  revert rows w. induction j as [|j IH]; intros rows w Hj Hfaults;
    destruct rows as [|row rows]; simpl in Hj; try lia.
  - simpl. unfold mbind, M_bind, call_upsert. rewrite Hfaults. simpl.
    eexists. split; [reflexivity |]. simpl. by destruct row.
  - simpl. unfold mbind, M_bind, call_upsert. rewrite Hfaults. simpl.
    rewrite upsert_without_fault.
    destruct (IH rows {| db := apply_increment (db w) (row.1, row.2);
                         calls := calls w ++ [Increment row.1 row.2];
                         faults := replicate j NoFault ++ AtConnect :: later;
                         written := written w |})
      as (w' & Hrun & Hdb & Hcalls & Hout); [lia | done |].
    exists w'. rewrite Hrun. split; [done |]. simpl in *.
    split; [by destruct row |]. split; [| done].
    rewrite Hcalls, <- app_assoc. by destruct row.
Qed.

(** X19. When the store answers the first [j] increment calls of a batch
    and the next connection attempt fails, the handler is aborted with [j]
    of the batch's merchant groups incremented, each by its row count, and
    one further increment attempted: nothing is rolled back, nothing is read
    and nothing is written. Which groups these are depends on the order in
    which the groups are iterated; the statement names no order. *)
Theorem aborted_batch_keeps_applied_increments
    (ci : list ImportanceEntry) (bottom : Q) (env : BatchEnv)
    (batch : list TransactionRecord) (batch_id : Z) (w : World)
    (j : nat) (later : list Fault) :
  (j < length (merchant_counts_in_batch batch))%nat →
  faults w = replicate j NoFault ++ AtConnect :: later →
  let run := process_batch ci bottom env batch batch_id w in
  fst run = Raised (UnboundLocalError "cur") ∧
  (∃ applied failed,
     applied ++ [failed] ⊆+ merchant_counts_in_batch batch ∧
     length applied = j ∧
     db (snd run) = foldl apply_increment (db w) applied ∧
     calls (snd run) = calls w ++ map increment_call (applied ++ [failed])) ∧
  written (snd run) = written w.
Proof.
  intros Hj Hfaults. cbv zeta.
  destruct (update_merchant_counts_aborts_at j (merchant_counts_in_batch batch) w later Hj Hfaults)
    as (w' & Hrun & Hdb & Hcalls & Hout).
  assert (Hpb : process_batch ci bottom env batch batch_id w
                = (Raised (UnboundLocalError "cur"), w')).
  { unfold process_batch. destruct batch as [|t rest]; [simpl in Hj; lia |].
    unfold mbind at 1, M_bind at 1. by rewrite Hrun. }
  rewrite Hpb. cbn [fst snd]. split; [done |]. split; [| done].
  destruct (lookup_lt_is_Some_2 _ _ Hj) as [failed Hfailed].
  exists (take j (merchant_counts_in_batch batch)), failed.
  rewrite <- (take_S_r _ _ _ Hfailed).
  split; [apply sublist_submseteq, sublist_take |].
  split; [rewrite length_take; lia |]. done.
Qed.

(** The sample batch when the second connection attempt fails. *)
Lemma sample_batch_aborted_after_one_increment :
  let w := {| db := ∅; calls := []; faults := [NoFault; AtConnect]; written := [] |} in
  (1 < length (merchant_counts_in_batch sample_batch))%nat ∧
  faults w = replicate 1 NoFault ++ AtConnect :: [] ∧
  fst (process_batch [] 0 sample_env sample_batch 7 w) = Raised (UnboundLocalError "cur") ∧
  (∃ applied failed,
     applied ++ [failed] ⊆+ merchant_counts_in_batch sample_batch ∧
     length applied = 1%nat ∧
     db (snd (process_batch [] 0 sample_env sample_batch 7 w))
       = foldl apply_increment (db w) applied ∧
     calls (snd (process_batch [] 0 sample_env sample_batch 7 w))
       = calls w ++ map increment_call (applied ++ [failed])) ∧
  written (snd (process_batch [] 0 sample_env sample_batch 7 w)) = written w.
Proof.
  intros w.
  assert (Hj : (1 < length (merchant_counts_in_batch sample_batch))%nat).
  { vm_compute. lia. }
  split; [exact Hj |]. split; [reflexivity |].
  exact (aborted_batch_keeps_applied_increments [] 0 sample_env sample_batch 7 w 1 []
           Hj eq_refl).
Defined.

(** The indices of a list of 100 weights. *)
Lemma binary64_indices_of_100_weights :
  Z.of_nat 100 <= 10000 ∧
  binary64_index float_0_01 (Z.of_nat 100) = Some (Z.of_nat (bottom_index 100)) ∧
  binary64_index float_0_99 (Z.of_nat 100) = Some (Z.of_nat (top_index 100)).
Proof.
  assert (Hn : Z.of_nat 100 <= 10000) by lia.
  split; [exact Hn |].
  exact (binary64_indices_are_exact 100 Hn).
Defined.
